(** * eole: decoding-time constraints and decoder caches

    A shallow embedding of

    - [eole/predict/decode_strategy.py] (class [DecodeStrategy]): the state
      shared by the greedy and beam strategies and the constraints applied to
      the per-step score distribution;
    - [eole/decoders/transformer_decoder.py] (class [TransformerDecoder]):
      the cache set-up performed by [forward] and [_init_cache].

    Conventions of the embedding.

    - Token ids, path indices and sizes are natural numbers; the length bounds
      and [block_ngram_repeat] are Python integers ([Z]), since the code
      compares them with [<= 0] and shifts them by signed amounts.
    - Scores are the exact rational values of the floating-point entries; the
      constants [-65504], [-10e20] and [10000] are the ones of the source.
      Rounding and overflow of the tensor arithmetic are not represented.
    - A method that may raise returns a [result]; a method that mutates
      [self] returns the outcome together with the state it leaves behind.
    - The dictionaries and sets reachable from [self.forbidden_tokens] live in
      an explicit store of objects addressed by location, so that aliasing and
      [deepcopy] mean what they mean in Python. *)

From Stdlib Require Import ZArith QArith Lia.
From stdpp Require Import base list option strings gmap.
Close Scope Q_scope.

(** ** The fragment of Python and torch used by the two classes *)

Module Py.

Inductive exn :=
  | AssertionError | AttributeError | IndexError | KeyError
  | ValueError | RuntimeError | TypeError.

Inductive result (A : Type) :=
  | Ok (a : A)
  | Raise (e : exn).
Arguments Ok {A} a.
Arguments Raise {A} e.

#[global] Instance result_ret : MRet result := @Ok.
#[global] Instance result_bind : MBind result :=
  λ A B f m, match m with Ok a => f a | Raise e => Raise e end.

(** Reading an attribute that has not been assigned yet. *)
Definition attr {A} (o : option A) : result A :=
  match o with Some a => Ok a | None => Raise AttributeError end.

Definition or_raise {A} (e : exn) (o : option A) : result A :=
  match o with Some a => Ok a | None => Raise e end.

(** [xs[i:]] and [xs[:i]] for a Python integer [i]: a negative bound counts
    from the end, and both clamp to the list. *)
Definition slice_from {A} (i : Z) (xs : list A) : list A :=
  if (i <? 0)%Z then drop (Z.to_nat (Z.of_nat (length xs) + i)) xs
  else drop (Z.to_nat i) xs.

Definition slice_to {A} (i : Z) (xs : list A) : list A :=
  if (i <? 0)%Z then take (Z.to_nat (Z.of_nat (length xs) + i)) xs
  else take (Z.to_nat i) xs.

(** The position [i] denotes in a sequence of length [len]; out of range
    raises [IndexError]. *)
Definition norm_index (len : nat) (i : Z) : result nat :=
  let j := if (i <? 0)%Z then (Z.of_nat len + i)%Z else i in
  if decide (0 ≤ j < Z.of_nat len)%Z then Ok (Z.to_nat j) else Raise IndexError.

Definition getitem {A} (i : Z) (xs : list A) : result A :=
  j ← norm_index (length xs) i; or_raise IndexError (xs !! j).

(** [max(xs)] and [min(xs)] on a list of integers; [ValueError] when empty. *)
Definition py_max (xs : list Z) : result Z :=
  match xs with [] => Raise ValueError | x :: xs => Ok (foldl Z.max x xs) end.

Definition py_min (xs : list Z) : result Z :=
  match xs with [] => Raise ValueError | x :: xs => Ok (foldl Z.min x xs) end.

(** [max(xs)] is an element of [xs] that bounds all the others. *)
Definition is_max (m : Z) (xs : list Z) : Prop := m ∈ xs ∧ Forall (λ y, y ≤ m)%Z xs.
Definition is_min (m : Z) (xs : list Z) : Prop := m ∈ xs ∧ Forall (λ y, m ≤ y)%Z xs.

(** *** Two-dimensional tensors

    [ncols] is [shape[1]], kept apart from the rows because a tensor with no
    row still has a width; [length rows] is [shape[0]]. *)
Record tensor2 (A : Type) := Tensor2 { ncols : nat; rows : list (list A) }.
Arguments Tensor2 {A} ncols rows.
Arguments ncols {A} t.
Arguments rows {A} t.

Definition nrows {A} (t : tensor2 A) : nat := length (rows t).

Definition wf {A} (t : tensor2 A) : Prop :=
  Forall (λ r, length r = ncols t) (rows t).

#[global] Instance wf_dec {A} (t : tensor2 A) : Decision (wf t).
Proof. unfold wf. apply _. Defined.

(** [torch.full([n, m], v)]. *)
Definition full {A} (n m : nat) (v : A) : tensor2 A :=
  Tensor2 m (replicate n (replicate m v)).

(** [t[i, j]]. *)
Definition entry {A} (t : tensor2 A) (i j : nat) : option A :=
  r ← rows t !! i; r !! j.

(** [t[:, j].tolist()]. *)
Definition column {A} (j : Z) (t : tensor2 A) : result (list A) :=
  j' ← norm_index (ncols t) j;
  or_raise IndexError (mapM (λ r : list A, r !! j') (rows t)).

(** [t[:, k:]] for [k >= 0]. *)
Definition slice_cols {A} (k : nat) (t : tensor2 A) : tensor2 A :=
  Tensor2 (ncols t - k) (drop k <$> rows t).

(** [t[idx]] for a tensor [idx] of row indices. *)
Definition index_select {A} (idx : list nat) (t : tensor2 A) : result (tensor2 A) :=
  rs ← or_raise IndexError (mapM (λ i : nat, rows t !! i) idx);
  Ok (Tensor2 (ncols t) rs).

(** [t.ne(v).sum(dim=-1).tolist()]. *)
Definition count_ne (v : nat) (t : tensor2 nat) : list Z :=
  (λ r, Z.of_nat (length (filter (λ x, x ≠ v) r))) <$> rows t.

(** [t[:, j] = v]. *)
Definition set_column {A} (j : nat) (v : A) (t : tensor2 A) : result (tensor2 A) :=
  if decide (j < ncols t) then Ok (Tensor2 (ncols t) (<[j:=v]> <$> rows t))
  else Raise IndexError.

(** [t[i, js] = v] for a list [js] of column indices. *)
Definition set_entries {A} (i : nat) (js : list nat) (v : A) (t : tensor2 A)
  : result (tensor2 A) :=
  if decide (i < nrows t ∧ Forall (λ j, j < ncols t) js)
  then Ok (Tensor2 (ncols t) (alter (λ r, foldr (λ j r, <[j:=v]> r) r js) i (rows t)))
  else Raise IndexError.

(** [torch.sparse_coo_tensor(coo.t(), ones, size=(n, m)).to_dense()]: the
    entry at [(i, j)] is the number of coordinates equal to [(i, j)]. The
    call is made without [check_invariants], so the coordinates are not
    checked against the size and nothing is raised: a coordinate outside
    the size reaches no entry. *)
Definition sparse_ones_to_dense (coo : list (nat * nat)) (n m : nat) : tensor2 Q :=
  Tensor2 m
    ((λ i, (λ j, inject_Z (Z.of_nat (length (filter (λ c, c = (i, j)) coo))))
           <$> seq 0 m) <$> seq 0 n).

Definition tmap {A B} (f : A → B) (t : tensor2 A) : tensor2 B :=
  Tensor2 (ncols t) ((λ r : list A, f <$> r) <$> rows t).

Definition map2 {A B C} (f : A → B → C) (t : tensor2 A) (u : tensor2 B) : tensor2 C :=
  Tensor2 (ncols t) (zip_with (zip_with f) (rows t) (rows u)).

(** [torch.zeros(n); z[ids] = 1; z.to(bool)]. *)
Definition index_mask (n : nat) (ids : list nat) : result (list bool) :=
  if decide (Forall (λ i, i < n) ids)
  then Ok ((λ i, bool_decide (i ∈ ids)) <$> seq 0 n)
  else Raise IndexError.

(** [t.masked_fill(mask.unsqueeze(1), v)]: rows whose mask is set are filled. *)
Definition masked_fill_rows {A} (mask : list bool) (v : A) (t : tensor2 A) : tensor2 A :=
  Tensor2 (ncols t)
    (zip_with (λ (b : bool) r, if b then (λ _, v) <$> r else r) mask (rows t)).

(** *** Objects with identity

    Dictionaries keep their insertion order, as Python's do; sets are
    extensional. A location is an index into the store and allocation
    appends, so a location is fresh for a store exactly when it is not below
    the store's length. *)
Abbreviation loc := nat.
Abbreviation ngram := (list nat).

Inductive pyobj :=
  | PyDict (items : list (ngram * loc))
  | PySet (elems : gset nat).

Abbreviation heap := (list pyobj).

Definition alloc (o : pyobj) (h : heap) : loc * heap := (length h, h ++ [o]).

Fixpoint dict_lookup (key : ngram) (items : list (ngram * loc)) : option loc :=
  match items with
  | [] => None
  | (k, v) :: items => if decide (k = key) then Some v else dict_lookup key items
  end.

Definition read_dict (l : loc) (h : heap) : result (list (ngram * loc)) :=
  match h !! l with Some (PyDict items) => Ok items | _ => Raise TypeError end.

Definition read_set (l : loc) (h : heap) : result (gset nat) :=
  match h !! l with Some (PySet s) => Ok s | _ => Raise TypeError end.

(** [d.get(key, None)]: the set object stored under [key], if any. *)
Definition dict_get (d : loc) (key : ngram) (h : heap) : result (option loc) :=
  items ← read_dict d h; Ok (dict_lookup key items).

(** [d[key]]. *)
Definition dict_getitem (d : loc) (key : ngram) (h : heap) : result loc :=
  items ← read_dict d h; or_raise KeyError (dict_lookup key items).

(** [d.setdefault(key, set())]: the argument [set()] is built before the
    call, whether or not it ends up stored. *)
Definition dict_setdefault_set (d : loc) (key : ngram) (h : heap) : result heap :=
  let '(s0, h) := alloc (PySet ∅) h in
  items ← read_dict d h;
  match dict_lookup key items with
  | Some _ => Ok h
  | None => Ok (<[d := PyDict (items ++ [(key, s0)])]> h)
  end.

(** [s.add(x)]. *)
Definition set_add (l : loc) (x : nat) (h : heap) : result heap :=
  s ← read_set l h; Ok (<[l := PySet (s ∪ {[x]})]> h).

(** [copy.deepcopy] of a dictionary from tuples of ints to sets of ints.
    Tuples and ints are immutable and copied by value; every set is copied
    into a new object, once per identity ([memo] maps the objects already
    copied to their copies, as [deepcopy]'s memo does). *)
Fixpoint deepcopy_items (memo : gmap loc loc) (items : list (ngram * loc)) (h : heap)
  : result (list (ngram * loc) * heap) :=
  match items with
  | [] => Ok ([], h)
  | (key, v) :: items =>
      match memo !! v with
      | Some v' =>
          '(items', h') ← deepcopy_items memo items h;
          Ok ((key, v') :: items', h')
      | None =>
          s ← read_set v h;
          let '(v', h1) := alloc (PySet s) h in
          '(items', h') ← deepcopy_items (<[v := v']> memo) items h1;
          Ok ((key, v') :: items', h')
      end
  end.

Definition deepcopy (l : loc) (h : heap) : result (loc * heap) :=
  items ← read_dict l h;
  let '(l', h0) := alloc (PyDict []) h in
  '(items', h1) ← deepcopy_items {[l := l']} items h0;
  Ok (l', <[l' := PyDict items']> h1).

(** *** The contents of a table of forbidden tokens *)

(** The elements of the set object at [l]. *)
Definition set_at (h : heap) (l : loc) : gset nat :=
  match h !! l with Some (PySet s) => s | _ => ∅ end.

(** The dictionary at [l] read by value: each key with the elements of the
    set stored under it, in insertion order. *)
Definition table (h : heap) (l : loc) : list (ngram * gset nat) :=
  match h !! l with
  | Some (PyDict items) => (λ kv, (kv.1, set_at h kv.2)) <$> items
  | _ => []
  end.

Definition is_set (h : heap) (l : loc) : Prop :=
  match h !! l with Some (PySet _) => True | _ => False end.

#[global] Instance is_set_dec (h : heap) (l : loc) : Decision (is_set h l).
Proof. unfold is_set. destruct (h !! l) as [[]|]; apply _. Defined.

(** [l] is a dictionary as [maybe_update_forbidden_tokens] builds them: its
    keys are distinct, each value is a set object, and no set object is
    stored under two keys. *)
Definition dict_ok (h : heap) (l : loc) : Prop :=
  match h !! l with
  | Some (PyDict items) =>
      NoDup items.*1 ∧ NoDup items.*2 ∧ Forall (is_set h) items.*2
  | _ => False
  end.

#[global] Instance dict_ok_dec (h : heap) (l : loc) : Decision (dict_ok h l).
Proof. unfold dict_ok. destruct (h !! l) as [[]|]; apply _. Defined.

(** The objects a dictionary consists of: itself and the sets it stores. *)
Definition dict_locs (h : heap) (l : loc) : list loc :=
  match h !! l with
  | Some (PyDict items) => l :: items.*2
  | _ => [l]
  end.

(** [h'] has every object of [h] below [n] as [h] has it. *)
Definition agree_below (n : nat) (h h' : heap) : Prop :=
  ∀ l, l < n → h' !! l = h !! l.

(** [t.setdefault(key, set()); t[key].add(x)] on the contents. *)
Fixpoint table_add (key : ngram) (x : nat) (t : list (ngram * gset nat))
  : list (ngram * gset nat) :=
  match t with
  | [] => [(key, {[x]})]
  | (k, s) :: t =>
      if decide (k = key) then (k, s ∪ {[x]}) :: t
      else (k, s) :: table_add key x t
  end.

(** [t[key].add(x)] on the contents, for a key that may be absent. *)
Fixpoint table_alter (key : ngram) (x : nat) (t : list (ngram * gset nat))
  : list (ngram * gset nat) :=
  match t with
  | [] => []
  | (k, s) :: t =>
      if decide (k = key) then (k, s ∪ {[x]}) :: t
      else (k, s) :: table_alter key x t
  end.

(** The contents of a path's table once the [k] last tokens of its
    sequence [row] are recorded: their first [k - 1] tokens forbid the last
    one, unless one of the [k] tokens is excluded. *)
Definition record_ngram (excl : gset nat) (k : nat) (row : list nat)
    (t : list (ngram * gset nat)) : list (ngram * gset nat) :=
  let current_ngram := drop (length row - k) row in
  if decide (list_to_set current_ngram ∩ excl ≠ ∅) then t
  else match last current_ngram with
       | Some x => table_add (take (k - 1) current_ngram) x t
       | None => t
       end.

(** [t.get(key)] on the contents. *)
Fixpoint table_get (key : ngram) (t : list (ngram * gset nat)) : option (gset nat) :=
  match t with
  | [] => None
  | (k, s) :: t => if decide (k = key) then Some s else table_get key t
  end.

(** No key and no forbidden token of the table is an excluded token. *)
Definition clean (excl : gset nat) (t : list (ngram * gset nat)) : Prop :=
  Forall (λ e, (∀ x, x ∈ e.1 → x ∉ excl) ∧ (∀ x, x ∈ e.2 → x ∉ excl)) t.

(** The table forbids token [x] after the tokens [key]: [key] is a key of
    the dictionary and [x] is in the set stored under it. *)
Definition forbids (t : list (ngram * gset nat)) (key : ngram) (x : nat) : Prop :=
  ∃ s, table_get key t = Some s ∧ x ∈ s.

(** The table records the sequence [row]: for every window of [k]
    consecutive tokens of [row] that holds no excluded token, the first
    [k - 1] tokens of the window forbid its last token. *)
Definition covers (excl : gset nat) (k : nat) (t : list (ngram * gset nat))
    (row : list nat) : Prop :=
  ∀ p x, p + k ≤ length row →
    (∀ y, y ∈ take k (drop p row) → y ∉ excl) →
    last (take k (drop p row)) = Some x →
    forbids t (take (k - 1) (take k (drop p row))) x.

End Py.

(** ** [DecodeStrategy] *)

Module DecodeStrategy.
Import Py.

(** The attributes of a [DecodeStrategy] read by the methods below. The
    result caches ([predictions], [scores], [attention], [hypotheses]),
    [alive_attn] and [global_scorer] are never read by them and are left out.
    [alive_seq], [is_finished_list], [target_prefix] and [select_indices] are
    only assigned after construction: [None] is an attribute not yet set.
    [store] holds the objects behind [forbidden_tokens]. *)
Record state := State {
  pad : nat;
  bos : nat;
  eos : list nat;
  unk : nat;
  start : nat;
  batch_size : nat;
  parallel_paths : nat;
  min_length : Z;
  max_length : Z;
  ban_unk_token : bool;
  block_ngram_repeat : Z;
  forbidden_tokens : list loc;
  exclusion_tokens : gset nat;
  return_attention : bool;
  done : bool;
  alive_seq : option (tensor2 nat);
  is_finished_list : option (list (list bool));
  target_prefix : option (option (tensor2 nat));
  select_indices : option (list nat);
  store : heap
}.

Definition set_alive_seq (v : option (tensor2 nat)) (s : state) : state :=
  State (pad s) (bos s) (eos s) (unk s) (start s) (batch_size s) (parallel_paths s)
    (min_length s) (max_length s) (ban_unk_token s) (block_ngram_repeat s)
    (forbidden_tokens s) (exclusion_tokens s) (return_attention s) (done s)
    v (is_finished_list s) (target_prefix s) (select_indices s) (store s).

Definition set_is_finished_list (v : option (list (list bool))) (s : state) : state :=
  State (pad s) (bos s) (eos s) (unk s) (start s) (batch_size s) (parallel_paths s)
    (min_length s) (max_length s) (ban_unk_token s) (block_ngram_repeat s)
    (forbidden_tokens s) (exclusion_tokens s) (return_attention s) (done s)
    (alive_seq s) v (target_prefix s) (select_indices s) (store s).

Definition set_target_prefix (v : option (option (tensor2 nat))) (s : state) : state :=
  State (pad s) (bos s) (eos s) (unk s) (start s) (batch_size s) (parallel_paths s)
    (min_length s) (max_length s) (ban_unk_token s) (block_ngram_repeat s)
    (forbidden_tokens s) (exclusion_tokens s) (return_attention s) (done s)
    (alive_seq s) (is_finished_list s) v (select_indices s) (store s).

Definition set_min_length (v : Z) (s : state) : state :=
  State (pad s) (bos s) (eos s) (unk s) (start s) (batch_size s) (parallel_paths s)
    v (max_length s) (ban_unk_token s) (block_ngram_repeat s)
    (forbidden_tokens s) (exclusion_tokens s) (return_attention s) (done s)
    (alive_seq s) (is_finished_list s) (target_prefix s) (select_indices s) (store s).

Definition set_max_length (v : Z) (s : state) : state :=
  State (pad s) (bos s) (eos s) (unk s) (start s) (batch_size s) (parallel_paths s)
    (min_length s) v (ban_unk_token s) (block_ngram_repeat s)
    (forbidden_tokens s) (exclusion_tokens s) (return_attention s) (done s)
    (alive_seq s) (is_finished_list s) (target_prefix s) (select_indices s) (store s).

Definition set_forbidden_tokens (v : list loc) (h : heap) (s : state) : state :=
  State (pad s) (bos s) (eos s) (unk s) (start s) (batch_size s) (parallel_paths s)
    (min_length s) (max_length s) (ban_unk_token s) (block_ngram_repeat s)
    v (exclusion_tokens s) (return_attention s) (done s)
    (alive_seq s) (is_finished_list s) (target_prefix s) (select_indices s) h.

(** The [eos] argument of the constructor: one id or a list of ids. *)
Inductive eos_arg :=
  | EosInt (e : nat)
  | EosList (es : list nat).

(** [[dict() for _ in range(n)]]. *)
Fixpoint alloc_dicts (n : nat) (h : heap) : list loc * heap :=
  match n with
  | 0 => ([], h)
  | S n =>
      let '(l, h) := alloc (PyDict []) h in
      let '(ls, h) := alloc_dicts n h in
      (l :: ls, h)
  end.

(** [DecodeStrategy.__init__]. The arguments [global_scorer] and
    [add_estimator] are not read by the modelled methods and are dropped.
    The body has no [raise] and no [assert]. *)
Definition __init__ (pad bos : nat) (eos : eos_arg) (unk start : nat)
    (batch_size parallel_paths : nat) (min_length block_ngram_repeat : Z)
    (exclusion_tokens : gset nat) (return_attention : bool)
    (max_length : Z) (ban_unk_token : bool) : result state :=
  let eos := match eos with EosInt e => [e] | EosList es => es end in
  let n_paths := batch_size * parallel_paths in
  let '(forbidden_tokens, h) := alloc_dicts n_paths [] in
  Ok (State pad bos eos unk start batch_size parallel_paths
        min_length max_length ban_unk_token block_ngram_repeat
        forbidden_tokens exclusion_tokens return_attention false
        None None None None h).

(** [DecodeStrategy.initialize]. *)
Definition initialize (target_prefix : option (tensor2 nat)) (self : state)
  : result unit * state :=
  let self := set_alive_seq
    (Some (full (batch_size self * parallel_paths self) 1 (start self))) self in
  let self := set_is_finished_list
    (Some (replicate (batch_size self) (replicate (parallel_paths self) false))) self in
  match target_prefix with
  | None => (Ok (), set_target_prefix (Some None) self)
  | Some target_prefix =>
      let batch_size' := nrows target_prefix in
      if decide (batch_size' = batch_size self * parallel_paths self) then
        let target_prefix := slice_cols 1 target_prefix in
        let prefix_non_pad := count_ne (pad self) target_prefix in
        match py_max prefix_non_pad with
        | Raise e => (Raise e, self)
        | Ok mx =>
            let self := set_max_length (max_length self + (mx - 1)) self in
            match py_min prefix_non_pad with
            | Raise e => (Raise e, self)
            | Ok mn =>
                let self := set_min_length (min_length self + (mn - 1)) self in
                (Ok (), set_target_prefix (Some (Some target_prefix)) self)
            end
        end
      else (Raise AssertionError, self)
  end.

(** [DecodeStrategy.__len__]. *)
Definition __len__ (self : state) : result nat :=
  a ← attr (alive_seq self); Ok (ncols a).

Definition min_length_sentinel : Q := (-65504)%Q.
Definition ngram_sentinel : Q := (-1000000000000000000000)%Q.  (* -10e20 *)
Definition prefix_penalty : Q := 10000%Q.

(** [DecodeStrategy.ensure_min_length]; the result is [log_probs] after the
    in-place assignments. *)
Definition ensure_min_length (self : state) (log_probs : tensor2 Q)
  : result (tensor2 Q) :=
  len ← __len__ self;
  if decide (Z.of_nat len ≤ min_length self)%Z
  then foldl (λ lp e, lp ← lp; set_column e min_length_sentinel lp)
             (Ok log_probs) (eos self)
  else Ok log_probs.

(** [DecodeStrategy.ensure_unk_removed]. *)
Definition ensure_unk_removed (self : state) (log_probs : tensor2 Q)
  : result (tensor2 Q) :=
  if ban_unk_token self then set_column (unk self) min_length_sentinel log_probs
  else Ok log_probs.

(** [DecodeStrategy.ensure_max_length]. *)
Definition ensure_max_length (self : state) : result unit * state :=
  match __len__ self with
  | Raise e => (Raise e, self)
  | Ok len =>
      if decide (Z.of_nat len = max_length self + 1)%Z then
        match is_finished_list self with
        | None => (Raise AttributeError, self)
        | Some fin =>
            (Ok (), set_is_finished_list
               (Some (replicate (length fin) (replicate (parallel_paths self) true)))
               self)
        end
      else (Ok (), self)
  end.

(** The loop of [block_ngram_repeats] over the paths [path_idx], with the
    row of [alive_seq] of each. *)
Fixpoint block_paths (self : state) (n : Z) (paths : list (nat * list nat))
    (log_probs : tensor2 Q) : result (tensor2 Q) :=
  match paths with
  | [] => Ok log_probs
  | (path_idx, row) :: paths =>
      let current_ngram := slice_from (- n) row in
      d ← or_raise IndexError (forbidden_tokens self !! path_idx);
      forbidden ← dict_get d current_ngram (store self);
      log_probs ← match forbidden with
                  | None => Ok log_probs
                  | Some sl =>
                      s ← read_set sl (store self);
                      set_entries path_idx (elements s) ngram_sentinel log_probs
                  end;
      block_paths self n paths log_probs
  end.

(** [DecodeStrategy.block_ngram_repeats]. *)
Definition block_ngram_repeats (self : state) (log_probs : tensor2 Q)
  : result (tensor2 Q) :=
  if decide (block_ngram_repeat self ≤ 0)%Z then Ok log_probs else
  len ← __len__ self;
  if decide (Z.of_nat len < block_ngram_repeat self)%Z then Ok log_probs else
  let n := (block_ngram_repeat self - 1)%Z in
  a ← attr (alive_seq self);
  block_paths self n (zip (seq 0 (nrows a)) (rows a)) log_probs.

(** The loop of [maybe_update_forbidden_tokens] over
    [zip(self.select_indices, self.alive_seq)]; [old] is
    [self.forbidden_tokens], the result is the list built by the loop. *)
Fixpoint update_paths (excl : gset nat) (n : Z) (old : list loc)
    (paths : list (nat * list nat)) (h : heap) : result (list loc * heap) :=
  match paths with
  | [] => Ok ([], h)
  | (path_idx, row) :: paths =>
      src ← or_raise IndexError (old !! path_idx);
      '(d, h) ← deepcopy src h;
      let current_ngram := slice_from (- n) row in
      h ← (if decide (list_to_set current_ngram ∩ excl ≠ ∅) then Ok h else
             h ← dict_setdefault_set d (slice_to (-1) current_ngram) h;
             sl ← dict_getitem d (slice_to (-1) current_ngram) h;
             last_token ← getitem (-1) current_ngram;
             set_add sl last_token h);
      '(ds, h) ← update_paths excl n old paths h;
      Ok (d :: ds, h)
  end.

(** [DecodeStrategy.maybe_update_forbidden_tokens]. When the loop raises,
    [self.forbidden_tokens] is not reassigned; the objects the loop had
    allocated are unreachable and are not kept in [store]. *)
Definition maybe_update_forbidden_tokens (self : state) : result unit * state :=
  if decide (block_ngram_repeat self ≤ 0)%Z then (Ok (), self) else
  match __len__ self with
  | Raise e => (Raise e, self)
  | Ok len =>
      if decide (Z.of_nat len < block_ngram_repeat self)%Z then (Ok (), self) else
      let n := block_ngram_repeat self in
      match
        sel ← attr (select_indices self);
        a ← attr (alive_seq self);
        update_paths (exclusion_tokens self) n (forbidden_tokens self)
          (zip sel (rows a)) (store self)
      with
      | Raise e => (Raise e, self)
      | Ok (forbidden, h) => (Ok (), set_forbidden_tokens forbidden h self)
      end
  end.

(** [pick not in [*self.eos, self.pad]]. *)
Definition forced (self : state) (pick : nat) : bool :=
  bool_decide (pick ∉ eos self ++ [pad self]).

(** [DecodeStrategy.target_prefixing]; the result is the returned
    [log_probs]. *)
Definition target_prefixing (self : state) (log_probs : tensor2 Q)
  : result (tensor2 Q) :=
  let _B := nrows log_probs in
  let vocab_size := ncols log_probs in
  step ← __len__ self;
  prefix ← attr (target_prefix self);
  match prefix with
  | None => Ok log_probs
  | Some prefix =>
      if decide (step ≤ ncols prefix) then
        pick_idx ← column (Z.of_nat step - 1) prefix;
        let pick_coo := filter (λ c, forced self c.2) (zip (seq 0 (length pick_idx)) pick_idx) in
        let mask_pathid :=
          (filter (λ c, negb (forced self c.2)) (zip (seq 0 (length pick_idx)) pick_idx)).*1 in
        if decide (0 < length pick_coo) then
          let pickups := sparse_ones_to_dense pick_coo _B vocab_size in
          let dropdowns := tmap (λ p, (1 - p)%Q) pickups in
          dropdowns ← (if decide (0 < length mask_pathid) then
                         path_mask ← index_mask _B mask_pathid;
                         Ok (masked_fill_rows path_mask 0%Q dropdowns)
                       else Ok dropdowns);
          Ok (map2 (λ x d, (x - prefix_penalty * d)%Q) log_probs dropdowns)
        else Ok log_probs
      else Ok log_probs
  end.

(** [DecodeStrategy.maybe_update_target_prefix]. *)
Definition maybe_update_target_prefix (select_index : list nat) (self : state)
  : result unit * state :=
  match attr (target_prefix self) with
  | Raise e => (Raise e, self)
  | Ok None => (Ok (), self)
  | Ok (Some prefix) =>
      match __len__ self with
      | Raise e => (Raise e, self)
      | Ok len =>
          if decide (ncols prefix < len) then (Ok (), self) else
          match index_select select_index prefix with
          | Raise e => (Raise e, self)
          | Ok prefix' => (Ok (), set_target_prefix (Some (Some prefix')) self)
          end
      end
  end.

(** Row [i] of [dropdowns] before masking: 0 at the picked token of a
    forced row, 1 elsewhere. *)
Definition dropdown_row (coo : list (nat * nat)) (m i : nat) : list Q :=
  (λ p, (1 - p)%Q)
    <$> ((λ j, inject_Z (Z.of_nat (length (filter (λ c, c = (i, j)) coo))))
           <$> seq 0 m).

(** The score of token [j] once the tokens of [forbidden] are blocked. *)
Definition blocked (forbidden : option (gset nat)) (j : nat) (x : Q) : Q :=
  match forbidden with
  | Some s => if decide (j ∈ s) then ngram_sentinel else x
  | None => x
  end.

(** The tables of a strategy are well-formed dictionaries free of excluded
    tokens. *)
Definition tables_ok (self : state) : Prop :=
  Forall (λ d, dict_ok (store self) d
               ∧ clean (exclusion_tokens self) (table (store self) d))
    (forbidden_tokens self).

(** Every key of every table is the empty tuple: what
    [maybe_update_forbidden_tokens] builds from empty tables when
    [block_ngram_repeat] is 1. *)
Definition keyless (self : state) : Prop :=
  ∀ d key s, d ∈ forbidden_tokens self → (key, s) ∈ table (store self) d → key = [].

End DecodeStrategy.

(** ** [TransformerDecoder] *)

Module TransformerDecoder.
Import Py.

(** A tensor of any rank: its shape and its entries in row-major order.
    Device and dtype are not represented. *)
Record tensor := Tensor { shape : list nat; data : list Q }.

(** [torch.tensor([])]. *)
Definition empty : tensor := Tensor [0] [].

(** [torch.zeros(shape)]. *)
Definition zeros (shp : list nat) : tensor :=
  Tensor shp (replicate (foldr Nat.mul 1 shp) 0%Q).

Definition dim (t : tensor) : nat := length (shape t).

(** [t.size(i)]. *)
Definition size (i : Z) (t : tensor) : result nat := getitem i (shape t).

(** [t.numel()]. *)
Definition numel (t : tensor) : nat := length (data t).

(** [isinstance(layer.self_attn, AverageAttention)] or not. *)
Inductive self_attn_kind := MultiHeadedAttention | AverageAttention.

(** A [layer_cache]: the activity flag and the dictionary of buffers, in
    insertion order. *)
Definition layer_cache : Type := bool * list (string * tensor).

(** The cache attributes of one [TransformerDecoderLayer]:
    [self_attn.layer_cache] and [context_attn.layer_cache]. *)
Record layer := Layer {
  self_attn : self_attn_kind;
  self_attn_layer_cache : layer_cache;
  context_attn_layer_cache : layer_cache
}.

Definition kv_cache (active : bool) (k v : tensor) : layer_cache :=
  (active, [("keys"%string, k); ("values"%string, v)]).

Definition avg_cache (active : bool) (g : tensor) : layer_cache :=
  (active, [("prev_g"%string, g)]).

(** [TransformerDecoder._init_cache]. Moving [rope], [cos] and [sin] to the
    device of [enc_out] changes no value. *)
Definition _init_cache (enc_out : tensor) (layers : list layer) : result (list layer) :=
  batch_size ← size 0 enc_out;
  depth ← size (-1) enc_out;
  Ok ((λ l,
         Layer (self_attn l)
           (match self_attn l with
            | AverageAttention => avg_cache true (zeros [batch_size; 1; depth])
            | MultiHeadedAttention => kv_cache true empty empty
            end)
           (kv_cache true empty empty)) <$> layers).

(** The branch [step is None] of [forward]. *)
Definition disable_cache (layers : list layer) : list layer :=
  (λ l,
     Layer (self_attn l)
       (match self_attn l with
        | AverageAttention => avg_cache false empty
        | MultiHeadedAttention => kv_cache false empty empty
        end)
       (kv_cache false empty empty)) <$> layers.

(** [TransformerDecoder.forward] up to the loop over the layers: the
    assertions, the default of [enc_out] and the cache set-up. Returns the
    encoder output in use and the layers. *)
Definition forward_setup (emb : tensor) (enc_out tgt_pad_mask src_pad_mask : option tensor)
    (step : option Z) (layers : list layer) : result (tensor * list layer) :=
  if decide (dim emb ≠ 3) then Raise AssertionError else
  if decide (tgt_pad_mask = None) then Raise AssertionError else
  if decide (src_pad_mask = None) then Raise AssertionError else
  let enc_out := default emb enc_out in
  match step with
  | Some 0%Z => layers ← _init_cache enc_out layers; Ok (enc_out, layers)
  | None => Ok (enc_out, disable_cache layers)
  | Some _ => Ok (enc_out, layers)
  end.

(** Both caches of the layer are inactive. *)
Definition caches_off (l : layer) : Prop :=
  (self_attn_layer_cache l).1 = false ∧ (context_attn_layer_cache l).1 = false.

Section Stack.

(** The numerical content of the attention modules and of the feed-forward
    blocks, whose classes ([eole.modules], [eole.decoders.transformer_base])
    are not among the sources: the key and value projections of the encoder
    output by the cross-attention of layer [i], the buffers of the self
    attention of layer [i] after one more step, the output of layer [i],
    and the final normalisation. *)
Variable context_proj : nat → tensor → tensor * tensor.
Variable self_attn_buffers : nat → tensor → list (string * tensor) → list (string * tensor).
Variable layer_out : nat → tensor → tensor → layer → tensor.
Variable layer_norm : tensor → tensor.

(** Modelled from the spec: the call of the cross-attention module
    ([MultiHeadedAttention.forward], not among the sources) on its cache.
    "Cross-attention cache is derived once from the fixed encoder output and
    persists unchanged across steps": an active cache that holds nothing yet
    receives the projections of [enc_out]; an active cache that holds them is
    reused; with caching disabled the cache is not touched. *)
Definition context_attn_call (i : nat) (enc_out : tensor) (c : layer_cache) : layer_cache :=
  match c with
  | (true, [(k, keys); (v, _)]) =>
      if decide (numel keys = 0)
      then (true, [(k, (context_proj i enc_out).1); (v, (context_proj i enc_out).2)])
      else c
  | _ => c
  end.

(** Modelled from the spec: the call of the self-attention module (not among
    the sources) on its cache. "Each layer appends the new step's key/value
    (or updates the running average) to its own cache slot"; with caching
    disabled the cache is not touched. *)
Definition self_attn_call (i : nat) (layer_in : tensor) (c : layer_cache) : layer_cache :=
  if c.1 then (true, self_attn_buffers i layer_in c.2) else c.

(** Modelled from the spec: one call [layer(emb, enc_out, ...)] of
    [TransformerDecoderLayerBase.forward] (not among the sources), which
    runs [_forward]: the self attention, then the cross attention over
    [enc_out]. *)
Definition layer_call (i : nat) (emb enc_out : tensor) (l : layer) : tensor * layer :=
  let l' := Layer (self_attn l)
              (self_attn_call i emb (self_attn_layer_cache l))
              (context_attn_call i enc_out (context_attn_layer_cache l)) in
  (layer_out i emb enc_out l', l').

(** The cross-attention cache of layer [i] holds the projections of
    [enc_out] and is active. *)
Definition context_cached (enc_out : tensor) (i : nat) (l : layer) : Prop :=
  context_attn_layer_cache l
  = kv_cache true (context_proj i enc_out).1 (context_proj i enc_out).2.

(** The loop [for layer in self.transformer_layers]. *)
Fixpoint run_layers (i : nat) (emb enc_out : tensor) (layers : list layer)
  : tensor * list layer :=
  match layers with
  | [] => (emb, [])
  | l :: layers =>
      let '(emb, l') := layer_call i emb enc_out l in
      let '(emb, layers') := run_layers (S i) emb enc_out layers in
      (emb, l' :: layers')
  end.

(** [TransformerDecoder.forward]: the normalised output and the layers with
    the caches they hold afterwards (the attention maps are left out). *)
Definition forward (emb : tensor) (enc_out tgt_pad_mask src_pad_mask : option tensor)
    (step : option Z) (layers : list layer) : result (tensor * list layer) :=
  '(enc_out, layers) ← forward_setup emb enc_out tgt_pad_mask src_pad_mask step layers;
  let '(emb, layers) := run_layers 0 emb enc_out layers in
  Ok (layer_norm emb, layers).

End Stack.

End TransformerDecoder.

(** ** Concrete runs

    The vocabulary of the running scenario: pad 0, bos 1, eos 2, unk 3 and two
    ordinary tokens 4 and 5; decoding starts from bos. *)

Module Scenario.
Import Py DecodeStrategy.

(** A decoder of two layers, the second with average attention, whose
    caches are left over from an earlier sentence; the embedding of one
    token for two paths, an encoder output of three positions, hidden
    width 4. *)
Definition emb : TransformerDecoder.tensor :=
  TransformerDecoder.zeros [2; 1; 4].

Definition enc_out : TransformerDecoder.tensor :=
  TransformerDecoder.Tensor [2; 3; 4] (replicate 24 1%Q).

Definition mask : TransformerDecoder.tensor :=
  TransformerDecoder.zeros [2; 1; 3].

Definition layers : list TransformerDecoder.layer :=
  [TransformerDecoder.Layer TransformerDecoder.MultiHeadedAttention
     (TransformerDecoder.kv_cache true enc_out enc_out)
     (TransformerDecoder.kv_cache true emb emb);
   TransformerDecoder.Layer TransformerDecoder.AverageAttention
     (TransformerDecoder.avg_cache false TransformerDecoder.empty)
     (TransformerDecoder.kv_cache false TransformerDecoder.empty
        TransformerDecoder.empty)].

(** A greedy strategy ([parallel_paths = 1]) for one sentence with
    [min_length = 0] and [max_length = 3], as [__init__] leaves it. *)
Definition greedy : state :=
  State 0 1 [2] 3 1 1 1 0 3 false 0 [0] ∅ false false None None None None [PyDict []].

(** The same strategy once the alive sequence holds the start token and
    [max_length] further tokens. *)
Definition greedy_at_max : state :=
  set_is_finished_list (Some [[false]])
    (set_alive_seq (Some (Tensor2 4 [[1; 4; 4; 4]])) greedy).

(** Two paths after the start token, with [min_length = 2]. *)
Definition two_paths : state :=
  State 0 1 [2] 3 1 2 1 2 10 false 0 [0; 1] ∅ false false
    (Some (Tensor2 1 [[1]; [1]])) (Some [[false]; [false]]) (Some None) None
    [PyDict []; PyDict []].

(** Scores of two paths over the six tokens. *)
Definition scores : tensor2 Q :=
  Tensor2 6 [[(-7)%Q; (-6)%Q; (-1)%Q; (-5)%Q; (-2)%Q; (-3)%Q];
             [(-7)%Q; (-6)%Q; (-4)%Q; (-5)%Q; (-3)%Q; (-1)%Q]].

(** A forced prefix for two paths, already tiled, with its start token:
    the first path is forced to [4 5], the second to [5] and then padded. *)
Definition prefix : tensor2 nat := Tensor2 3 [[1; 4; 5]; [1; 5; 0]].

(** The two paths one step later, holding the prefix as [initialize] stores
    it; [initialize] has moved [max_length] from 10 to 11. *)
Definition two_paths_prefixed : state :=
  State 0 1 [2] 3 1 2 1 2 11 false 0 [0; 1] ∅ false false
    (Some (Tensor2 2 [[1; 4]; [1; 5]])) (Some [[false]; [false]])
    (Some (Some (Tensor2 2 [[4; 5]; [5; 0]]))) None
    [PyDict []; PyDict []].

(** Bigram blocking on one path that has produced [1 4 5]: the bigram
    [4] after [1] is recorded already. *)
Definition bigram : state :=
  State 0 1 [2] 3 1 1 1 0 10 false 2 [0] ∅ false false
    (Some (Tensor2 3 [[1; 4; 5]])) (Some [[false]]) (Some None) (Some [0])
    [PyDict [([1], 1)]; PySet {[4]}].

(** The same path when [4] after [5] is the recorded bigram. *)
Definition bigram_seen : state :=
  State 0 1 [2] 3 1 1 1 0 10 false 2 [0] ∅ false false
    (Some (Tensor2 3 [[1; 4; 5]])) (Some [[false]]) (Some None) (Some [0])
    [PyDict [([5], 1)]; PySet {[4]}].

(** Unigram blocking ([block_ngram_repeat = 1]) on one path right after
    its first token 4 was selected, and the state in which
    [maybe_update_forbidden_tokens] leaves it. *)
Definition unigram_start : state :=
  State 0 1 [2] 3 1 1 1 0 10 false 1 [0] ∅ false false
    (Some (Tensor2 2 [[1; 4]])) (Some [[false]]) (Some None) (Some [0])
    [PyDict []].

Definition unigram : state :=
  State 0 1 [2] 3 1 1 1 0 10 false 1 [1] ∅ false false
    (Some (Tensor2 2 [[1; 4]])) (Some [[false]]) (Some None) (Some [0])
    [PyDict []; PyDict [([], 2)]; PySet {[4]}].

(** Scores of one path over the six tokens. *)
Definition scores_one : tensor2 Q :=
  Tensor2 6 [[(-7)%Q; (-6)%Q; (-4)%Q; (-5)%Q; (-1)%Q; (-3)%Q]].

(** A prefix for one path only. *)
Definition prefix_one : tensor2 nat := Tensor2 3 [[1; 4; 5]].

(** The bigram path once it has come back to token 4: the sequence is
    [1 4 5 4] and its table records the three bigrams [1 4], [4 5] and
    [5 4]. *)
Definition bigram_cycle : state :=
  State 0 1 [2] 3 1 1 1 0 10 false 2 [0] ∅ false false
    (Some (Tensor2 4 [[1; 4; 5; 4]])) (Some [[false]]) (Some None) (Some [0])
    [PyDict [([1], 1); ([4], 2); ([5], 3)]; PySet {[4]}; PySet {[5]}; PySet {[4]}].

(** The bigram path when the beam selection names a path 3 that has no
    table. *)
Definition bigram_lost : state :=
  State 0 1 [2] 3 1 1 1 0 10 false 2 [0] ∅ false false
    (Some (Tensor2 3 [[1; 4; 5]])) (Some [[false]]) (Some None) (Some [3])
    [PyDict [([1], 1)]; PySet {[4]}].

(** The two paths of [two_paths] with the unknown token banned. *)
Definition two_paths_no_unk : state :=
  State 0 1 [2] 3 1 2 1 2 10 true 0 [0; 1] ∅ false false
    (Some (Tensor2 1 [[1]; [1]])) (Some [[false]; [false]]) (Some None) None
    [PyDict []; PyDict []].

(** Scores of two paths over a vocabulary of two tokens only, which holds
    neither eos nor the ordinary tokens. *)
Definition scores_narrow : tensor2 Q :=
  Tensor2 2 [[(-1)%Q; (-2)%Q]; [(-2)%Q; (-1)%Q]].

(** A strategy for an empty batch, and a prefix with no row. *)
Definition no_paths : state :=
  State 0 1 [2] 3 1 0 1 0 10 false 0 [] ∅ false false None None None None [].

Definition prefix_empty : tensor2 nat := Tensor2 3 [].

(** The two layers of [layers] with every cache switched off and empty. *)
Definition layers_off : list TransformerDecoder.layer :=
  [TransformerDecoder.Layer TransformerDecoder.MultiHeadedAttention
     (TransformerDecoder.kv_cache false TransformerDecoder.empty
        TransformerDecoder.empty)
     (TransformerDecoder.kv_cache false TransformerDecoder.empty
        TransformerDecoder.empty);
   TransformerDecoder.Layer TransformerDecoder.AverageAttention
     (TransformerDecoder.avg_cache false TransformerDecoder.empty)
     (TransformerDecoder.kv_cache false TransformerDecoder.empty
        TransformerDecoder.empty)].

(** One path at its first step whose prefix prescribes the unknown token 3,
    in a strategy that bans it: the stored prefix is [3 4]. *)
Definition unk_prefixed : state :=
  State 0 1 [2] 3 1 1 1 0 10 true 0 [0] ∅ false false
    (Some (Tensor2 1 [[1]])) (Some [[false]]) (Some (Some (Tensor2 2 [[3; 4]]))) None
    [PyDict []].

End Scenario.

(** * Properties *)

(** ** Lists, tensors and results *)

Module PyFacts.
Import Py.

Lemma foldl_max_ge (xs : list Z) (x : Z) : (x ≤ foldl Z.max x xs)%Z.
Proof.
  revert x. induction xs as [|y xs IH]; intros x; simpl; [lia|].
  specialize (IH (Z.max x y)). lia.
Qed.

Lemma foldl_max_upper (xs : list Z) (x : Z) :
  Forall (λ y, y ≤ foldl Z.max x xs)%Z xs.
Proof.
  revert x. induction xs as [|y xs IH]; intros x; simpl; constructor.
  - pose proof (foldl_max_ge xs (Z.max x y)). lia.
  - apply IH.
Qed.

Lemma foldl_max_elem (xs : list Z) (x : Z) : foldl Z.max x xs ∈ x :: xs.
Proof.
  revert x. induction xs as [|y xs IH]; intros x; simpl; [set_solver|].
  specialize (IH (Z.max x y)).
  apply elem_of_cons in IH as [IH|IH]; [|by do 2 right].
  rewrite IH. destruct (Z.max_spec x y) as [[_ ->]|[_ ->]]; [right|]; left.
Qed.

Lemma foldl_min_le (xs : list Z) (x : Z) : (foldl Z.min x xs ≤ x)%Z.
Proof.
  revert x. induction xs as [|y xs IH]; intros x; simpl; [lia|].
  specialize (IH (Z.min x y)). lia.
Qed.

Lemma foldl_min_lower (xs : list Z) (x : Z) :
  Forall (λ y, foldl Z.min x xs ≤ y)%Z xs.
Proof.
  revert x. induction xs as [|y xs IH]; intros x; simpl; constructor.
  - pose proof (foldl_min_le xs (Z.min x y)). lia.
  - apply IH.
Qed.

Lemma foldl_min_elem (xs : list Z) (x : Z) : foldl Z.min x xs ∈ x :: xs.
Proof.
  revert x. induction xs as [|y xs IH]; intros x; simpl; [set_solver|].
  specialize (IH (Z.min x y)).
  apply elem_of_cons in IH as [IH|IH]; [|by do 2 right].
  rewrite IH. destruct (Z.min_spec x y) as [[_ ->]|[_ ->]]; [|right]; left.
Qed.

Lemma py_max_spec (xs : list Z) :
  xs ≠ [] → ∃ m, py_max xs = Ok m ∧ is_max m xs.
Proof.
  destruct xs as [|x xs]; [done|]. intros _. exists (foldl Z.max x xs).
  split; [done|]. split; [apply foldl_max_elem|].
  constructor; [apply foldl_max_ge | apply foldl_max_upper].
Qed.

Lemma py_min_spec (xs : list Z) :
  xs ≠ [] → ∃ m, py_min xs = Ok m ∧ is_min m xs.
Proof.
  destruct xs as [|x xs]; [done|]. intros _. exists (foldl Z.min x xs).
  split; [done|]. split; [apply foldl_min_elem|].
  constructor; [apply foldl_min_le | apply foldl_min_lower].
Qed.

(** Assigning a list of columns, one after the other. *)
Lemma set_columns_Ok {A} (v : A) (es : list nat) (t : tensor2 A) :
  Forall (λ e, e < ncols t) es →
  foldl (λ lp e, lp ← lp; set_column e v lp) (Ok t) es
  = Ok (Tensor2 (ncols t) ((λ r, foldl (λ r e, <[e:=v]> r) r es) <$> rows t)).
Proof.
  revert t. induction es as [|e es IH]; intros [m rs] Hes; simpl in *.
  - by rewrite list_fmap_id.
  - inversion_clear Hes as [|?? He Hes'].
    unfold set_column at 2. simpl. rewrite decide_True by done.
    rewrite IH by done. simpl. by rewrite <- list_fmap_compose.
Qed.

Lemma lookup_foldl_insert {A} (v : A) (es : list nat) (r : list A) (j : nat) (x : A) :
  r !! j = Some x →
  foldl (λ r e, <[e:=v]> r) r es !! j = Some (if decide (j ∈ es) then v else x).
Proof.
  revert r x. induction es as [|e es IH]; intros r x Hj; simpl.
  - done.
  - destruct (decide (e = j)) as [->|Hne].
    + rewrite (IH _ v).
      * clear IH.
        destruct (decide (j ∈ es)), (decide (j ∈ j :: es)) as [|Hn];
          try done; exfalso; apply Hn; by left.
      * apply list_lookup_insert_eq. by eapply lookup_lt_Some.
    + rewrite (IH _ x) by by rewrite list_lookup_insert_ne.
      clear IH.
      destruct (decide (j ∈ es)) as [Hi|Hi], (decide (j ∈ e :: es)) as [Hi'|Hi'];
        try done; exfalso.
      * apply Hi'. by right.
      * apply elem_of_cons in Hi' as [->|Hi']; done.
Qed.

Lemma mapM_lookup_wf {A} (rs : list (list A)) (m j : nat) :
  Forall (λ r, length r = m) rs → j < m →
  ∃ c, mapM (λ r : list A, r !! j) rs = Some c
     ∧ length c = length rs
     ∧ ∀ i, c !! i = rs !! i ≫= (λ r, r !! j).
Proof.
  intros Hwf Hj. induction Hwf as [|r rs Hr _ (c & Ec & Hlen & Hc)].
  - exists []. by repeat split.
  - destruct (lookup_lt_is_Some_2 r j) as [x Ex]; [lia|].
    exists (x :: c). split; [|split].
    + simpl. rewrite Ex. simpl. rewrite Ec. done.
    + simpl. by rewrite Hlen.
    + intros [|i]; simpl; [by rewrite Ex | apply Hc].
Qed.

(** Reading column [j] of a well-formed tensor. *)
Lemma column_Ok {A} (t : tensor2 A) (j : nat) :
  wf t → j < ncols t →
  ∃ c, column (Z.of_nat j) t = Ok c
     ∧ length c = nrows t
     ∧ ∀ i, c !! i = entry t i j.
Proof.
  intros Hwf Hj. unfold column, norm_index.
  destruct (Z.ltb_spec (Z.of_nat j) 0); [lia|].
  rewrite decide_True by lia. simpl. rewrite Nat2Z.id.
  destruct (mapM_lookup_wf (rows t) (ncols t) j Hwf Hj) as (c & -> & Hlen & Hc).
  exists c. by repeat split.
Qed.

Lemma elem_of_zip_seq {A} (xs : list A) (s i : nat) (x : A) :
  (i, x) ∈ zip (seq s (length xs)) xs ↔ s ≤ i ∧ xs !! (i - s) = Some x.
Proof.
  revert s. induction xs as [|y xs IH]; intros s; simpl.
  - split; [by intros ?%elem_of_nil | by intros [_ ?]].
  - rewrite elem_of_cons, IH. split.
    + intros [[= -> ->]|[Hs Hx]].
      * split; [lia|]. by rewrite Nat.sub_diag.
      * split; [lia|]. by replace (i - s) with (S (i - S s)) by lia.
    + intros [Hs Hx]. destruct (decide (i = s)) as [->|Hne].
      * left. rewrite Nat.sub_diag in Hx. simpl in Hx. by injection Hx as ->.
      * right. split; [lia|].
        by replace (i - s) with (S (i - S s)) in Hx by lia.
Qed.

(** An enumerated list holds each index at most once. *)
Lemma count_zip_seq {A} `{EqDecision A} (P : nat * A → Prop) `{∀ c, Decision (P c)}
    (xs : list A) (s i : nat) (x : A) :
  length (filter (λ c, c = (i, x)) (filter P (zip (seq s (length xs)) xs)))
  = if decide (s ≤ i ∧ xs !! (i - s) = Some x ∧ P (i, x)) then 1 else 0.
Proof.
  revert s. induction xs as [|y xs IH]; intros s; simpl.
  - rewrite decide_False; [done|]. by intros (_ & ? & _).
  - rewrite filter_cons. destruct (decide (P (s, y))) as [HP|HP].
    + rewrite filter_cons. destruct (decide ((s, y) = (i, x))) as [[= -> ->]|Hne].
      * simpl. rewrite IH.
        destruct (decide (S i ≤ i ∧ _)) as [[? _]|_]; [lia|].
        rewrite decide_True; [done|]. rewrite Nat.sub_diag. done.
      * rewrite IH. destruct (decide (i = s)) as [->|Hs].
        -- destruct (decide (S s ≤ s ∧ _)) as [[? _]|_]; [lia|].
           rewrite decide_False; [done|].
           rewrite Nat.sub_diag. simpl. intros (_ & [= ->] & _). done.
        -- apply decide_ext. split; intros (? & Hx & ?).
           ++ split; [lia|]. by replace (i - s) with (S (i - S s)) by lia.
           ++ split; [lia|]. by replace (i - s) with (S (i - S s)) in Hx by lia.
    + rewrite IH. destruct (decide (i = s)) as [->|Hs].
      * destruct (decide (S s ≤ s ∧ _)) as [[? _]|_]; [lia|].
        rewrite decide_False; [done|].
        rewrite Nat.sub_diag. simpl. intros (_ & [= ->] & ?). done.
      * apply decide_ext. split; intros (? & Hx & ?).
        -- split; [lia|]. by replace (i - s) with (S (i - S s)) by lia.
        -- split; [lia|]. by replace (i - s) with (S (i - S s)) in Hx by lia.
Qed.

(** *** The store *)

Lemma is_set_lookup (h : heap) (l : loc) :
  is_set h l → h !! l = Some (PySet (set_at h l)).
Proof.
  unfold is_set, set_at. destruct (h !! l) as [[]|]; done.
Qed.

Lemma is_set_lt (h : heap) (l : loc) : is_set h l → l < length h.
Proof.
  intros H%is_set_lookup. by eapply lookup_lt_Some.
Qed.

Lemma read_set_Ok (h : heap) (l : loc) :
  is_set h l → read_set l h = Ok (set_at h l).
Proof. intros H. unfold read_set. by rewrite (is_set_lookup h l H). Qed.

(** Objects of the store are not affected by what is allocated later. *)
Lemma set_at_app (h ext : heap) (l : loc) :
  l < length h → set_at (h ++ ext) l = set_at h l.
Proof. intros H. unfold set_at. by rewrite lookup_app_l. Qed.

Lemma is_set_app (h ext : heap) (l : loc) :
  is_set h l → is_set (h ++ ext) l.
Proof.
  intros H. pose proof (is_set_lt h l H) as Hlt. unfold is_set.
  rewrite lookup_app_l by done. exact H.
Qed.

Lemma deepcopy_items_closed (items : list (ngram * loc)) (memo : gmap loc loc) (h : heap) :
  Forall (λ v, is_set h v ∧ memo !! v = None) items.*2 →
  NoDup items.*2 →
  deepcopy_items memo items h
  = Ok (zip items.*1 (seq (length h) (length items)),
        h ++ ((λ v, PySet (set_at h v)) <$> items.*2)).
Proof.
  revert memo h. induction items as [|[k v] items IH]; intros memo h Hall Hnd.
  - simpl. by rewrite app_nil_r.
  - simpl in *. inversion_clear Hall as [|?? [Hv Hm] Hall'].
    inversion_clear Hnd as [|?? Hnotin Hnd'].
    rewrite Hm. rewrite (read_set_Ok h v Hv). simpl.
    rewrite (IH (<[v:=length h]> memo) (h ++ [PySet (set_at h v)])); [| | done].
    + simpl. rewrite length_app. simpl. rewrite Nat.add_1_r.
      rewrite <- app_assoc. simpl. do 4 f_equal.
      apply Forall_fmap_ext_1. eapply Forall_impl; [exact Hall'|].
      intros v' [Hv' _]. simpl. f_equal. apply set_at_app. by apply is_set_lt.
    + apply Forall_forall. intros v' Hin.
      pose proof (proj1 (Forall_forall _ _) Hall' v' Hin) as [Hv' Hm'].
      split; [by apply is_set_app|].
      rewrite lookup_insert_ne; [done|]. intros ->. done.
Qed.

(** [deepcopy] of a well-formed dictionary, in closed form: the copy is
    the next location, followed by one new set per entry. *)
Lemma deepcopy_closed (h : heap) (l : loc) (items : list (ngram * loc)) :
  h !! l = Some (PyDict items) → dict_ok h l →
  deepcopy l h
  = Ok (length h,
        h ++ PyDict (zip items.*1 (seq (S (length h)) (length items)))
             :: ((λ v, PySet (set_at h v)) <$> items.*2)).
Proof.
  intros Hl Hok. unfold dict_ok in Hok. rewrite Hl in Hok.
  destruct Hok as (Hk & Hv & Hsets).
  unfold deepcopy, read_dict. rewrite Hl. simpl.
  rewrite deepcopy_items_closed; [| |done].
  - simpl. rewrite length_app. simpl. rewrite Nat.add_1_r. do 2 f_equal.
    rewrite <- app_assoc. simpl.
    rewrite insert_app_r_alt by lia. rewrite Nat.sub_diag. simpl. do 2 f_equal.
    apply Forall_fmap_ext_1. eapply Forall_impl; [exact Hsets|].
    intros v Hs. simpl. f_equal. apply set_at_app. by apply is_set_lt.
  - eapply Forall_impl; [exact Hsets|]. intros v Hs. simpl.
    split; [by apply is_set_app|].
    apply lookup_singleton_ne. intros ->.
    unfold is_set in Hs. by rewrite Hl in Hs.
Qed.

Lemma agree_below_refl (n : nat) (h : heap) : agree_below n h h.
Proof. by intros l _. Qed.

Lemma agree_below_trans (n n' : nat) (h h' h'' : heap) :
  n ≤ n' → agree_below n h h' → agree_below n' h' h'' → agree_below n h h''.
Proof. intros Hn H1 H2 l Hl. rewrite H2 by lia. by apply H1. Qed.

Lemma agree_below_app (h ext : heap) : agree_below (length h) h (h ++ ext).
Proof. intros l Hl. by apply lookup_app_l. Qed.

(** A well-formed dictionary lies below the end of the store, with its sets. *)
Lemma dict_locs_lt (h : heap) (d : loc) :
  dict_ok h d → Forall (λ l, l < length h) (dict_locs h d).
Proof.
  unfold dict_ok, dict_locs. destruct (h !! d) as [[items|]|] eqn:E; try done.
  intros (_ & _ & Hsets). constructor; [by eapply lookup_lt_Some|].
  eapply Forall_impl; [exact Hsets|]. intros v. apply is_set_lt.
Qed.

(** What is known of a dictionary only depends on its own objects. *)
Lemma dict_frame (h h' : heap) (d : loc) :
  dict_ok h d → (∀ l, l ∈ dict_locs h d → h' !! l = h !! l) →
  dict_ok h' d ∧ table h' d = table h d ∧ dict_locs h' d = dict_locs h d.
Proof.
  unfold dict_ok, table, dict_locs.
  destruct (h !! d) as [[items|]|] eqn:E; try done.
  intros (Hk & Hv & Hsets) Hsame.
  rewrite (Hsame d) by left. rewrite E.
  assert (Hvals : ∀ v, v ∈ items.*2 → h' !! v = h !! v).
  { intros v Hv'. apply Hsame. by right. }
  split; [|split; [|done]].
  - split; [done|]. split; [done|]. apply Forall_forall. intros v Hin.
    unfold is_set. rewrite (Hvals v Hin).
    exact (proj1 (Forall_forall _ _) Hsets v Hin).
  - apply list_fmap_ext. intros i [k v] Hi. simpl. f_equal.
    unfold set_at. rewrite Hvals; [done|].
    apply list_elem_of_fmap. exists (k, v). split; [done|].
    by eapply list_elem_of_lookup_2.
Qed.

Lemma dict_frame_below (n : nat) (h h' : heap) (d : loc) :
  dict_ok h d → length h ≤ n → agree_below n h h' →
  dict_ok h' d ∧ table h' d = table h d ∧ dict_locs h' d = dict_locs h d.
Proof.
  intros Hok Hn Hag. apply dict_frame; [done|]. intros l Hl. apply Hag.
  pose proof (proj1 (Forall_forall _ _) (dict_locs_lt h d Hok) l Hl). simpl in *. lia.
Qed.

(** The copy made by [deepcopy]: a new dictionary of new sets with the
    contents of the original, in a store that extends the old one. *)
Lemma deepcopy_spec (h : heap) (l : loc) :
  dict_ok h l →
  ∃ h1, deepcopy l h = Ok (length h, h1)
    ∧ length h < length h1
    ∧ agree_below (length h) h h1
    ∧ dict_ok h1 (length h)
    ∧ Forall (λ v, length h ≤ v) (dict_locs h1 (length h))
    ∧ table h1 (length h) = table h l.
Proof.
  intros Hok. pose proof Hok as Hok'. unfold dict_ok in Hok'.
  destruct (h !! l) as [[items|]|] eqn:El; try done.
  destruct Hok' as (Hk & Hv & Hsets).
  rewrite (deepcopy_closed h l items El Hok).
  set (items' := zip items.*1 (seq (S (length h)) (length items))).
  set (sets := (λ v, PySet (set_at h v)) <$> items.*2).
  assert (Hlen : length items.*1 = length (seq (S (length h)) (length items))).
  { by rewrite length_fmap, length_seq. }
  assert (E1 : items'.*1 = items.*1) by by apply fst_zip; rewrite Hlen.
  assert (E2 : items'.*2 = seq (S (length h)) (length items))
    by by apply snd_zip; rewrite Hlen.
  assert (Hd : (h ++ PyDict items' :: sets) !! length h = Some (PyDict items')).
  { rewrite lookup_app_r by lia. by rewrite Nat.sub_diag. }
  assert (Hset : ∀ j v, items.*2 !! j = Some v →
            (h ++ PyDict items' :: sets) !! (S (length h + j))
            = Some (PySet (set_at h v))).
  { intros j v Hj. rewrite lookup_app_r by lia.
    replace (S (length h + j) - length h) with (S j) by lia. simpl.
    unfold sets. rewrite list_lookup_fmap, Hj. done. }
  eexists. split; [reflexivity|]. split; [|split; [|split; [|split]]].
  - rewrite length_app. simpl. lia.
  - apply agree_below_app.
  - unfold dict_ok. rewrite Hd, E1, E2. split; [done|]. split; [apply NoDup_seq|].
    apply Forall_forall. intros v [j Hj]%list_elem_of_lookup_1.
    apply lookup_seq in Hj as [-> Hj].
    destruct (lookup_lt_is_Some_2 items.*2 j) as [v Ev];
      [by rewrite length_fmap|].
    unfold is_set. simpl. by rewrite (Hset j v Ev).
  - unfold dict_locs. rewrite Hd, E2. constructor; [done|].
    apply Forall_forall. intros v [j Hj]%list_elem_of_lookup_1.
    apply lookup_seq in Hj as [-> Hj]. lia.
  - unfold table. rewrite Hd, El. apply list_eq. intros j.
    rewrite !list_lookup_fmap. unfold items'. rewrite lookup_zip_with.
    rewrite list_lookup_fmap.
    destruct (items !! j) as [[k v]|] eqn:Ej; simpl; [|done].
    rewrite lookup_seq_lt by by eapply lookup_lt_Some. simpl.
    do 2 f_equal. unfold set_at at 1. fold items'.
    rewrite (Hset j v); [done|]. by rewrite list_lookup_fmap, Ej.
Qed.

Lemma dict_lookup_Some (key : ngram) (items : list (ngram * loc)) (v : loc) :
  dict_lookup key items = Some v → (key, v) ∈ items.
Proof.
  induction items as [|[k v'] items IH]; simpl; [done|].
  case_decide as Hk; [intros [= <-]; subst; left | intros H; right; by apply IH].
Qed.

Lemma dict_lookup_None (key : ngram) (items : list (ngram * loc)) :
  dict_lookup key items = None ↔ key ∉ items.*1.
Proof.
  induction items as [|[k v'] items IH]; simpl.
  - split; [intros _ H; by apply elem_of_nil in H | done].
  - rewrite not_elem_of_cons. case_decide as Hk.
    + split; [done | intros [? _]; congruence].
    + rewrite IH. split; [intros ?; split; [congruence | done] | by intros [_ ?]].
Qed.

Lemma table_keys (h : heap) (d : loc) (items : list (ngram * loc)) :
  h !! d = Some (PyDict items) → (table h d).*1 = items.*1.
Proof.
  intros E. unfold table. rewrite E. rewrite <- list_fmap_compose.
  by apply list_fmap_ext.
Qed.

Lemma table_add_alter (key : ngram) (x : nat) (t : list (ngram * gset nat)) :
  table_add key x t
  = table_alter key x (if decide (key ∈ t.*1) then t else t ++ [(key, ∅)]).
Proof.
  induction t as [|[k s] t IH]; simpl.
  - rewrite decide_True by done. by rewrite (left_id_L ∅ (∪)).
  - destruct (decide (k = key)) as [->|Hne].
    + rewrite decide_True by left. simpl. by rewrite decide_True.
    + rewrite IH. destruct (decide (key ∈ t.*1)) as [Hin|Hin].
      * rewrite decide_True by by right. simpl. by rewrite decide_False.
      * rewrite decide_False; [simpl; by rewrite decide_False|].
        intros [?|?]%elem_of_cons; [congruence | done].
Qed.

(** [d.setdefault(key, set())] on a well-formed dictionary. *)
Lemma setdefault_spec (h : heap) (d : loc) (key : ngram) :
  dict_ok h d →
  ∃ h', dict_setdefault_set d key h = Ok h'
    ∧ length h' = S (length h)
    ∧ (∀ l, l ≠ d → l < length h → h' !! l = h !! l)
    ∧ dict_ok h' d
    ∧ Forall (λ v, v ∈ dict_locs h d ∨ v = length h) (dict_locs h' d)
    ∧ table h' d
      = (if decide (key ∈ (table h d).*1) then table h d
         else table h d ++ [(key, ∅)])
    ∧ key ∈ (table h' d).*1.
Proof.
  intros Hok. pose proof (dict_locs_lt h d Hok) as Hlt.
  pose proof Hok as Hok'. unfold dict_ok in Hok'.
  destruct (h !! d) as [[items|]|] eqn:Ed; try done.
  destruct Hok' as (Hk & Hv & Hsets).
  assert (Hd : d < length h) by by eapply lookup_lt_Some.
  unfold dict_setdefault_set, alloc, read_dict.
  rewrite lookup_app_l by done. rewrite Ed. simpl.
  rewrite (table_keys h d items Ed).
  destruct (dict_lookup key items) as [v|] eqn:Elook.
  - (* the key is there: only the unused empty set is allocated *)
    destruct (dict_frame_below (length h) h (h ++ [PySet ∅]) d Hok)
      as (Hok1 & Ht1 & Hl1); [done | apply agree_below_app |].
    eexists. split; [reflexivity|]. split; [|split; [|split; [|split; [|split]]]].
    + rewrite length_app. simpl. lia.
    + intros l _ Hl. by apply lookup_app_l.
    + done.
    + rewrite Hl1. apply Forall_forall. intros v' Hv'. by left.
    + rewrite Ht1. rewrite decide_True; [done|].
      apply dict_lookup_Some in Elook. apply list_elem_of_fmap.
      by exists (key, v).
    + rewrite (f_equal (fmap fst) Ht1), (table_keys h d items Ed).
      apply dict_lookup_Some in Elook. apply list_elem_of_fmap. by exists (key, v).
  - (* the key is new: it is bound to the empty set just allocated *)
    assert (Hnew : key ∉ items.*1) by by apply dict_lookup_None.
    set (h' := <[d := PyDict (items ++ [(key, length h)])]> (h ++ [PySet ∅])).
    assert (Hd' : h' !! d = Some (PyDict (items ++ [(key, length h)]))).
    { unfold h'. apply list_lookup_insert_eq. rewrite length_app. simpl. lia. }
    assert (Hother : ∀ l, l ≠ d → h' !! l = (h ++ [PySet ∅]) !! l).
    { intros l Hl. unfold h'. by apply list_lookup_insert_ne. }
    assert (Hs0 : h' !! length h = Some (PySet ∅)).
    { rewrite Hother by lia. rewrite lookup_app_r by lia.
      by rewrite Nat.sub_diag. }
    assert (Hvals : ∀ v, v ∈ items.*2 → h' !! v = h !! v).
    { intros v Hin. pose proof (proj1 (Forall_forall _ _) Hsets v Hin) as Hs.
      pose proof (is_set_lt h v Hs).
      rewrite Hother; [by apply lookup_app_l|].
      intros ->. unfold is_set in Hs. by rewrite Ed in Hs. }
    exists h'. split; [done|]. split; [|split; [|split; [|split; [|split]]]].
    + unfold h'. rewrite length_insert, length_app. simpl. lia.
    + intros l Hl Hl'. rewrite Hother by done. by apply lookup_app_l.
    + unfold dict_ok. rewrite Hd'. rewrite !fmap_app. simpl. split; [|split].
      * apply NoDup_app. split; [done|]. split; [|apply NoDup_singleton].
        intros k Hin ->%list_elem_of_singleton. done.
      * apply NoDup_app. split; [done|]. split; [|apply NoDup_singleton].
        intros v Hin ->%list_elem_of_singleton.
        pose proof (proj1 (Forall_forall _ _) Hsets _ Hin) as Hs.
        apply is_set_lt in Hs. lia.
      * apply Forall_app. split.
        -- apply Forall_forall. intros v Hin. unfold is_set.
           rewrite (Hvals v Hin).
           exact (proj1 (Forall_forall _ _) Hsets v Hin).
        -- constructor; [|done]. unfold is_set. by rewrite Hs0.
    + unfold dict_locs. rewrite Hd', Ed. rewrite fmap_app. simpl.
      constructor; [left; left|]. apply Forall_app. split.
      * apply Forall_forall. intros v Hin. left. by right.
      * constructor; [by right | done].
    + rewrite decide_False by done. unfold table. rewrite Hd', Ed.
      rewrite fmap_app. simpl. f_equal.
      * apply list_fmap_ext. intros i [k v] Hi. simpl. f_equal.
        unfold set_at. rewrite Hvals; [done|].
        apply list_elem_of_fmap. exists (k, v). split; [done|].
        by eapply list_elem_of_lookup_2.
      * unfold set_at. by rewrite Hs0.
    + rewrite (table_keys h' d _ Hd'). rewrite fmap_app. simpl.
      apply elem_of_app. right. left.
Qed.

Lemma set_at_insert_eq (h : heap) (l : loc) (s : gset nat) :
  l < length h → set_at (<[l := PySet s]> h) l = s.
Proof. intros Hl. unfold set_at. by rewrite list_lookup_insert_eq. Qed.

Lemma set_at_insert_ne (h : heap) (l l' : loc) (o : pyobj) :
  l ≠ l' → set_at (<[l := o]> h) l' = set_at h l'.
Proof. intros Hl. unfold set_at. by rewrite list_lookup_insert_ne. Qed.

Lemma table_alter_insert (h : heap) (key : ngram) (x : nat) (sl : loc)
    (items : list (ngram * loc)) :
  NoDup items.*2 → dict_lookup key items = Some sl → sl < length h →
  (λ kv : ngram * loc,
     (kv.1, set_at (<[sl := PySet (set_at h sl ∪ {[x]})]> h) kv.2)) <$> items
  = table_alter key x ((λ kv : ngram * loc, (kv.1, set_at h kv.2)) <$> items).
Proof.
  intros Hnd Hlook Hsl. induction items as [|[k v] items IH]; csimpl in *; [done|].
  inversion_clear Hnd as [|?? Hnotin Hnd'].
  destruct (decide (k = key)) as [->|Hne].
  - injection Hlook as ->. rewrite set_at_insert_eq by done. f_equal.
    apply list_fmap_ext. intros i [k' v'] Hi. simpl. f_equal.
    apply set_at_insert_ne. intros ->. apply Hnotin.
    apply list_elem_of_fmap. exists (k', v'). split; [done|].
    by eapply list_elem_of_lookup_2.
  - rewrite IH by done. f_equal. f_equal. apply set_at_insert_ne. intros ->.
    apply Hnotin. apply dict_lookup_Some in Hlook.
    apply list_elem_of_fmap. by exists (key, v).
Qed.

(** [d[key].add(x)] on a well-formed dictionary that has the key. *)
Lemma add_spec (h : heap) (d : loc) (key : ngram) (x : nat) :
  dict_ok h d → key ∈ (table h d).*1 →
  ∃ sl h', dict_getitem d key h = Ok sl ∧ set_add sl x h = Ok h'
    ∧ sl ∈ dict_locs h d
    ∧ length h' = length h
    ∧ (∀ l, l ≠ sl → h' !! l = h !! l)
    ∧ dict_ok h' d
    ∧ dict_locs h' d = dict_locs h d
    ∧ table h' d = table_alter key x (table h d).
Proof.
  intros Hok Hkey. pose proof Hok as Hok'. unfold dict_ok in Hok'.
  destruct (h !! d) as [[items|]|] eqn:Ed; try done.
  destruct Hok' as (Hk & Hv & Hsets).
  rewrite (table_keys h d items Ed) in Hkey.
  destruct (dict_lookup key items) as [sl|] eqn:Elook; cycle 1.
  { by apply dict_lookup_None in Elook. }
  assert (Hin : sl ∈ items.*2).
  { apply dict_lookup_Some in Elook. apply list_elem_of_fmap. by exists (key, sl). }
  pose proof (proj1 (Forall_forall _ _) Hsets sl Hin) as Hs.
  pose proof (is_set_lt h sl Hs) as Hlt.
  assert (Hne : sl ≠ d).
  { intros ->. unfold is_set in Hs. by rewrite Ed in Hs. }
  set (h' := <[sl := PySet (set_at h sl ∪ {[x]})]> h).
  assert (Hd' : h' !! d = Some (PyDict items)).
  { unfold h'. by rewrite list_lookup_insert_ne. }
  exists sl, h'. unfold dict_getitem, read_dict, set_add. rewrite Ed. simpl.
  rewrite Elook. simpl. rewrite (read_set_Ok h sl Hs). simpl.
  split; [done|]. split; [done|]. split; [|split; [|split; [|split; [|split]]]].
  - unfold dict_locs. rewrite Ed. by right.
  - unfold h'. apply length_insert.
  - intros l Hl. unfold h'. by apply list_lookup_insert_ne.
  - unfold dict_ok. rewrite Hd'. split; [done|]. split; [done|].
    apply Forall_forall. intros v Hv'. unfold is_set, h'.
    destruct (decide (v = sl)) as [->|Hvs].
    + by rewrite list_lookup_insert_eq.
    + rewrite list_lookup_insert_ne by done.
      exact (proj1 (Forall_forall _ _) Hsets v Hv').
  - unfold dict_locs. by rewrite Hd', Ed.
  - unfold table. rewrite Hd', Ed. by apply table_alter_insert.
Qed.

Lemma slice_from_neg {A} (k : nat) (xs : list A) :
  0 < k → slice_from (- Z.of_nat k) xs = drop (length xs - k) xs.
Proof.
  intros Hk. unfold slice_from.
  destruct (Z.ltb_spec (- Z.of_nat k) 0); [|lia]. f_equal. lia.
Qed.

Lemma slice_to_minus_1 {A} (xs : list A) :
  slice_to (-1) xs = take (length xs - 1) xs.
Proof. unfold slice_to. simpl. f_equal. lia. Qed.

Lemma getitem_minus_1 {A} (xs : list A) (x : A) :
  last xs = Some x → getitem (-1) xs = Ok x.
Proof.
  intros Hlast. rewrite last_lookup in Hlast.
  assert (0 < length xs) by (destruct xs; [done | simpl; lia]).
  unfold getitem, norm_index. simpl. rewrite decide_True by lia. simpl.
  replace (Z.to_nat (Z.of_nat (length xs) + -1)) with (pred (length xs)) by lia.
  by rewrite Hlast.
Qed.

Lemma table_get_lookup (h : heap) (key : ngram) (items : list (ngram * loc)) :
  table_get key ((λ kv : ngram * loc, (kv.1, set_at h kv.2)) <$> items)
  = set_at h <$> dict_lookup key items.
Proof.
  induction items as [|[k v] items IH]; csimpl; [done|].
  case_decide; [done | exact IH].
Qed.

Lemma lookup_foldr_insert {A} (v : A) (js : list nat) (r : list A) (j : nat) (x : A) :
  r !! j = Some x →
  foldr (λ j r, <[j:=v]> r) r js !! j = Some (if decide (j ∈ js) then v else x).
Proof.
  intros Hj. induction js as [|e js IH]; simpl; [done|].
  destruct (decide (e = j)) as [->|Hne].
  - rewrite list_lookup_insert_eq.
    + by rewrite decide_True by left.
    + apply lookup_lt_is_Some. by rewrite IH.
  - rewrite list_lookup_insert_ne by done. rewrite IH.
    destruct (decide (j ∈ js)) as [Hi|Hi], (decide (j ∈ e :: js)) as [Hi'|Hi'];
      try done; exfalso.
    + apply Hi'. by right.
    + apply elem_of_cons in Hi' as [->|Hi']; done.
Qed.

(** Assigning a list of columns of one row. *)
Lemma set_entries_Ok {A} (i : nat) (js : list nat) (v : A) (t : tensor2 A) :
  i < nrows t → Forall (λ j, j < ncols t) js →
  ∃ t', set_entries i js v t = Ok t'
    ∧ ncols t' = ncols t ∧ nrows t' = nrows t
    ∧ (∀ i', i' ≠ i → rows t' !! i' = rows t !! i')
    ∧ ∀ j x, entry t i j = Some x →
        entry t' i j = Some (if decide (j ∈ js) then v else x).
Proof.
  intros Hi Hjs. unfold set_entries. rewrite decide_True by done.
  eexists. split; [reflexivity|]. simpl. split; [done|]. split; [|split].
  - unfold nrows. simpl. apply length_alter.
  - intros i' Hne. by apply list_lookup_alter_ne.
  - intros j x. unfold entry. simpl. rewrite list_lookup_alter_eq.
    destruct (rows t !! i) as [r|]; simpl; [|done].
    apply lookup_foldr_insert.
Qed.

Lemma dict_get_table (h : heap) (d : loc) (key : ngram) :
  dict_ok h d →
  ∃ o, dict_get d key h = Ok o
    ∧ table_get key (table h d) = set_at h <$> o
    ∧ ∀ sl, o = Some sl → is_set h sl.
Proof.
  unfold dict_ok, dict_get, read_dict, table.
  destruct (h !! d) as [[items|]|]; try done. intros (_ & _ & Hsets). simpl.
  exists (dict_lookup key items). split; [done|].
  split; [apply table_get_lookup|].
  intros sl Hsl%dict_lookup_Some.
  apply (proj1 (Forall_forall _ _) Hsets). apply list_elem_of_fmap.
  by exists (key, sl).
Qed.

Lemma table_get_Some (key : ngram) (t : list (ngram * gset nat)) (s : gset nat) :
  table_get key t = Some s → (key, s) ∈ t.
Proof.
  induction t as [|[k s'] t IH]; simpl; [done|].
  case_decide as Hk; [intros [= <-]; subst; left | intros Hg; right; by apply IH].
Qed.

(** *** Excluded tokens never enter a table *)

Lemma table_add_clean (excl : gset nat) (key : ngram) (x : nat)
    (t : list (ngram * gset nat)) :
  clean excl t → (∀ y, y ∈ key → y ∉ excl) → x ∉ excl →
  clean excl (table_add key x t).
Proof.
  intros Ht Hkey Hx. induction t as [|[k s] t IH]; simpl.
  - constructor; [|constructor]. split; [done|]. simpl.
    intros y ->%elem_of_singleton. done.
  - apply Forall_cons in Ht as [[Hk Hs] Ht]. simpl in *.
    case_decide; constructor; try done; [|by apply IH].
    split; [done|]. simpl. intros y [?| ->%elem_of_singleton]%elem_of_union;
      [by apply Hs | done].
Qed.

Lemma record_ngram_clean (excl : gset nat) (k : nat) (row : list nat)
    (t : list (ngram * gset nat)) :
  clean excl t → clean excl (record_ngram excl k row t).
Proof.
  intros Ht. unfold record_ngram.
  set (current_ngram := drop (length row - k) row).
  destruct (decide (list_to_set current_ngram ∩ excl ≠ ∅)) as [|Hex]; [done|].
  destruct (last current_ngram) as [x|] eqn:Elast; [|done].
  assert (Hfree : ∀ y, y ∈ current_ngram → y ∉ excl).
  { intros y Hy Hin. apply Hex. intros Hempty.
    assert (y ∈ (∅ : gset nat)) as Hy'; [|by apply not_elem_of_empty in Hy'].
    rewrite <- Hempty. apply elem_of_intersection. split; [|done].
    by apply elem_of_list_to_set. }
  apply table_add_clean; [done| |].
  - intros y Hy. apply Hfree. by apply (subseteq_take (k - 1) current_ngram).
  - apply Hfree. rewrite last_lookup in Elast. by eapply list_elem_of_lookup_2.
Qed.

(** *** Looking a table up *)

Lemma forbids_table_add (key : ngram) (x : nat) (t : list (ngram * gset nat))
    (key' : ngram) (y : nat) :
  forbids (table_add key x t) key' y ↔ forbids t key' y ∨ (key' = key ∧ y = x).
Proof.
  unfold forbids. induction t as [|[k0 s0] t IH]; simpl.
  - destruct (decide (key = key')) as [->|Hne].
    + split.
      * intros (s & [= <-] & Hy). apply elem_of_singleton in Hy. by right.
      * intros [(s & ? & _)|[_ ->]]; [done|].
        exists {[x]}. split; [done|]. by apply elem_of_singleton.
    + split.
      * by intros (s & ? & _).
      * intros [(s & ? & _)|[-> _]]; done.
  - destruct (decide (k0 = key)) as [->|Hne]; simpl.
    + destruct (decide (key = key')) as [<-|Hne'].
      * split.
        -- intros (s & [= <-] & [Hy|Hy%elem_of_singleton]%elem_of_union).
           ++ left. by exists s0.
           ++ by right.
        -- intros [(s & [= <-] & Hy)|[_ ->]]; eexists; (split; [done|]);
             apply elem_of_union; [by left | right; by apply elem_of_singleton].
      * split.
        -- intros H. by left.
        -- intros [H|[-> _]]; done.
    + destruct (decide (k0 = key')) as [->|Hne'].
      * split.
        -- intros H. by left.
        -- intros [H|[-> _]]; done.
      * apply IH.
Qed.

Lemma table_add_keys (key : ngram) (x : nat) (t : list (ngram * gset nat))
    (key' : ngram) (s : gset nat) :
  (key', s) ∈ table_add key x t → key' = key ∨ ∃ s', (key', s') ∈ t.
Proof.
  induction t as [|[k0 s0] t IH]; simpl.
  - intros [= -> _]%list_elem_of_singleton. by left.
  - destruct (decide (k0 = key)) as [->|Hne].
    + intros [[= -> _]|Hin]%elem_of_cons; [by left|].
      right. exists s. by apply elem_of_cons; right.
    + intros [[= -> ->]|Hin]%elem_of_cons.
      * right. exists s0. by apply elem_of_cons; left.
      * destruct (IH Hin) as [?|[s' ?]]; [by left|].
        right. exists s'. by apply elem_of_cons; right.
Qed.

(** [set(current_ngram) & exclusion_tokens] is empty exactly when no token
    of the n-gram is excluded. *)
Lemma excluded_spec (excl : gset nat) (g : list nat) :
  list_to_set (C := gset nat) g ∩ excl = ∅ ↔ ∀ x, x ∈ g → x ∉ excl.
Proof.
  split.
  - intros Hempty x Hx Hex.
    apply (not_elem_of_empty (C := gset nat) x). rewrite <- Hempty.
    apply elem_of_intersection. split; [by apply elem_of_list_to_set | done].
  - intros Hall. apply elem_of_equiv_empty_L.
    intros x [Hx Hex]%elem_of_intersection. apply elem_of_list_to_set in Hx.
    by apply (Hall x).
Qed.

Lemma last_drop {A} (n : nat) (xs : list A) :
  n < length xs → last (drop n xs) = last xs.
Proof.
  revert n. induction xs as [|x xs IH]; intros n Hn; simpl in *; [lia|].
  destruct n as [|n]; [done|]. simpl. rewrite IH by lia.
  destruct xs; [simpl in *; lia | done].
Qed.

(** What a table forbids once the [k] last tokens of [row] are recorded. *)
Lemma forbids_record_ngram (excl : gset nat) (k : nat) (row : list nat)
    (t : list (ngram * gset nat)) (key : ngram) (x : nat) :
  0 < k → k ≤ length row →
  forbids (record_ngram excl k row t) key x
  ↔ forbids t key x
    ∨ ((∀ y, y ∈ drop (length row - k) row → y ∉ excl)
       ∧ key = take (k - 1) (drop (length row - k) row)
       ∧ last row = Some x).
Proof.
  intros Hk Hlen. unfold record_ngram.
  rewrite (last_drop (length row - k) row) by lia.
  destruct (decide (list_to_set (drop (length row - k) row) ∩ excl ≠ ∅)) as [Hex|Hex].
  - split; [by left|]. intros [?|[Hall _]]; [done|]. exfalso.
    apply Hex. by apply excluded_spec.
  - assert (Hall : ∀ y, y ∈ drop (length row - k) row → y ∉ excl).
    { apply excluded_spec. by apply dec_stable. }
    destruct (last row) as [z|] eqn:Hlast.
    + rewrite forbids_table_add. split.
      * intros [?|[-> ->]]; [by left | by right].
      * intros [?|(_ & -> & [= ->])]; [by left | by right].
    + split; [by left|]. by intros [?|(_ & _ & ?)].
Qed.

(** *** Assigning columns *)

Lemma set_column_entry {A} (j : nat) (v : A) (t t' : tensor2 A) :
  set_column j v t = Ok t' →
  ncols t' = ncols t ∧ nrows t' = nrows t
  ∧ ∀ i j' x, entry t i j' = Some x →
      entry t' i j' = Some (if decide (j' = j) then v else x).
Proof.
  unfold set_column. destruct (decide (j < ncols t)); [|done].
  intros [= <-]. simpl. split; [done|]. split.
  { unfold nrows. simpl. by rewrite length_fmap. }
  intros i j' x. unfold entry. simpl. rewrite list_lookup_fmap.
  destruct (rows t !! i) as [r|]; [|done]. simpl. intros Hx.
  destruct (decide (j' = j)) as [->|Hne].
  - apply list_lookup_insert_eq. by eapply lookup_lt_Some.
  - by rewrite list_lookup_insert_ne.
Qed.

Lemma set_columns_Raise {A} (v : A) (es : list nat) (e : exn) :
  foldl (λ lp e, lp ← lp; set_column e v lp) (Raise e) es = Raise e.
Proof. induction es as [|e' es IH]; [done|]. simpl. exact IH. Qed.

Lemma set_columns_out_of_range {A} (v : A) (es : list nat) (t : tensor2 A) :
  Exists (λ e, ncols t ≤ e) es →
  foldl (λ lp e, lp ← lp; set_column e v lp) (Ok t) es = Raise IndexError.
Proof.
  revert t. induction es as [|e es IH]; intros t Hex.
  - by apply Exists_nil in Hex.
  - simpl. unfold set_column at 2.
    destruct (decide (e < ncols t)) as [Hlt|Hge].
    + apply IH. simpl. apply Exists_cons in Hex as [?|?]; [lia|done].
    + apply set_columns_Raise.
Qed.

(** Two assignments of the same value to whole columns commute, failures
    included. *)
Lemma set_column_comm {A} (i j : nat) (v : A) (r : result (tensor2 A)) :
  (t ← (t ← r; set_column i v t); set_column j v t)
  = (t ← (t ← r; set_column j v t); set_column i v t).
Proof.
  destruct r as [t|e]; [|done]. simpl. unfold set_column.
  destruct (decide (i < ncols t)), (decide (j < ncols t)); simpl;
    rewrite ?decide_True by done; rewrite ?decide_False by done; try done.
  f_equal. f_equal. rewrite <- !list_fmap_compose. apply list_fmap_ext.
  intros _ r _. simpl. destruct (decide (i = j)) as [->|Hne]; [done|].
  by apply list_insert_insert_ne.
Qed.

Lemma set_columns_comm {A} (u : nat) (v : A) (es : list nat) (r : result (tensor2 A)) :
  foldl (λ lp e, lp ← lp; set_column e v lp) (t ← r; set_column u v t) es
  = (t ← foldl (λ lp e, lp ← lp; set_column e v lp) r es; set_column u v t).
Proof.
  revert r. induction es as [|e es IH]; intros r; [done|].
  simpl. rewrite <- IH. f_equal. apply set_column_comm.
Qed.

(** *** Counting and slicing *)

Lemma count_ne_bounds (v : nat) (t : tensor2 nat) (c : Z) :
  wf t → c ∈ count_ne v t → (0 ≤ c ≤ Z.of_nat (ncols t))%Z.
Proof.
  intros Hwf Hc. unfold count_ne in Hc.
  apply list_elem_of_fmap in Hc as (r & -> & Hr).
  pose proof (proj1 (Forall_forall _ _) Hwf r Hr) as Hlen. simpl in Hlen.
  rewrite <- Hlen. split; [lia|]. apply Nat2Z.inj_le. apply length_filter.
Qed.

Lemma slice_cols_wf {A} (k : nat) (t : tensor2 A) : wf t → wf (slice_cols k t).
Proof.
  unfold wf, slice_cols. simpl. intros H. apply Forall_fmap.
  eapply Forall_impl; [exact H|]. intros r Hr. simpl in *. rewrite length_drop. lia.
Qed.

Lemma fst_zip_take {A B} (l : list A) (k : list B) :
  (zip l k).*1 = take (length k) l.
Proof.
  revert k. induction l as [|x l IH]; intros [|y k]; simpl; try done.
  by rewrite IH.
Qed.

End PyFacts.

(** ** [DecodeStrategy]: construction, initialisation and the length bounds *)

Module DecodeStrategyFacts.
Import Py PyFacts DecodeStrategy.

(** C1. When the alive sequence has [max_length + 1] columns,
    [ensure_max_length] returns a strategy whose [is_finished_list] has one
    row per batch item and [parallel_paths] flags per row, all of them set,
    whatever the tokens of the alive sequence and whatever the other
    settings of the strategy (minimum length, unk ban, n-gram blocking,
    forced prefix); no other attribute is changed; run again on the
    resulting state it returns that state unchanged, with the same flags. *)
Theorem ensure_max_length_forces_finish
    (self : state) (a : tensor2 nat) (fin : list (list bool)) :
  alive_seq self = Some a →
  is_finished_list self = Some fin →
  Z.of_nat (ncols a) = (max_length self + 1)%Z →
  ∃ self' flags,
    ensure_max_length self = (Ok (), self')
    ∧ is_finished_list self' = Some flags
    ∧ length flags = length fin
    ∧ Forall (λ row, length row = parallel_paths self ∧ Forall (λ b, b = true) row) flags
    ∧ (∀ i j row b, flags !! i = Some row → row !! j = Some b → b = true)
    ∧ flags = replicate (length fin) (replicate (parallel_paths self) true)
    ∧ self' = set_is_finished_list (Some flags) self
    ∧ alive_seq self' = Some a
    ∧ max_length self' = max_length self
    ∧ ensure_max_length self' = (Ok (), self')
    ∧ is_finished_list self' = Some flags.
Proof.
  intros Ha Hfin Hlen.
  set (flags := replicate (length fin) (replicate (parallel_paths self) true)).
  assert (Hrun : ensure_max_length self
                 = (Ok (), set_is_finished_list (Some flags) self)).
  { unfold ensure_max_length, __len__. rewrite Ha. simpl.
    rewrite decide_True by done. by rewrite Hfin. }
  exists (set_is_finished_list (Some flags) self), flags.
  split; [exact Hrun|]. split; [reflexivity|].
  split; [apply length_replicate|]. split.
  { apply Forall_replicate. split; [apply length_replicate|].
    apply Forall_replicate. done. }
  split.
  { intros i j row b Hrow Hb. apply lookup_replicate in Hrow as [-> _].
    by apply lookup_replicate in Hb as [-> _]. }
  split; [reflexivity|]. split; [reflexivity|]. split; [exact Ha|].
  split; [reflexivity|]. split; [|reflexivity].
  unfold ensure_max_length, __len__. simpl. rewrite Ha. simpl.
  rewrite decide_True by done. unfold set_is_finished_list. simpl.
  unfold flags. by rewrite !length_replicate.
Qed.

(** C1, at the end of the scenario: with [max_length = 3] and the sequence
    [1 4 4 4] the only path, not finished before, is marked finished, and
    stays so. *)
Lemma ensure_max_length_forces_finish_witness :
  is_finished_list Scenario.greedy_at_max = Some [[false]]
  ∧ ∃ s, ensure_max_length Scenario.greedy_at_max = (Ok (), s)
      ∧ is_finished_list s = Some [[true]]
      ∧ ensure_max_length s = (Ok (), s).
Proof.
  split; [reflexivity|].
  destruct (ensure_max_length_forces_finish Scenario.greedy_at_max
              (Tensor2 4 [[1; 4; 4; 4]]) [[false]] eq_refl eq_refl eq_refl)
    as (s & flags & Hrun & Hfin & _ & _ & _ & Hflags & _ & _ & _ & Hagain & _).
  exists s. split; [exact Hrun|]. split; [|exact Hagain].
  rewrite Hfin, Hflags. reflexivity.
Defined.

(** The greedy strategy of the scenario is what the constructor returns. *)
Example init_greedy :
  __init__ 0 1 (EosInt 2) 3 1 1 1 0 0 ∅ false 3 false = Ok Scenario.greedy.
Proof. reflexivity. Qed.

Lemma alloc_dicts_total (n : nat) (h : heap) :
  ∃ ls h', alloc_dicts n h = (ls, h').
Proof. destruct (alloc_dicts n h) as [ls h']. eauto. Qed.

(** C5, as stated, fails: a strategy with [max_length = 0] and
    [min_length = 5], which is both a non-positive maximum and a minimum
    above the maximum, is constructed without any error. *)
Lemma init_accepts_bad_length_bounds :
  let r := __init__ 0 1 (EosInt 2) 3 1 1 1 5 0 ∅ false 0 false in
  (∃ s, r = Ok s ∧ max_length s = 0%Z ∧ min_length s = 5%Z)
  ∧ ¬ ∃ e, r = Raise e.
Proof.
  split.
  - eexists. split; [reflexivity|]. split; reflexivity.
  - intros [e He]. discriminate He.
Qed.

(** C5, amended. [__init__] validates nothing: for all arguments, whatever
    the length bounds, it returns a strategy that stores [min_length] and
    [max_length] as given. *)
Theorem init_never_rejects_length_bounds
    (pad bos : nat) (eos : eos_arg) (unk start batch_size parallel_paths : nat)
    (min_length block_ngram_repeat : Z) (exclusion_tokens : gset nat)
    (return_attention : bool) (max_length : Z) (ban_unk_token : bool) :
  ∃ s, __init__ pad bos eos unk start batch_size parallel_paths min_length
         block_ngram_repeat exclusion_tokens return_attention max_length
         ban_unk_token = Ok s
       ∧ DecodeStrategy.max_length s = max_length
       ∧ DecodeStrategy.min_length s = min_length.
Proof.
  unfold __init__.
  destruct (alloc_dicts_total (batch_size * parallel_paths) []) as (ls & h & ->).
  eexists. split; [reflexivity|]. split; reflexivity.
Qed.

(** C8. While the alive sequence is no longer than [min_length],
    [ensure_min_length] gives the score [-65504] to every id of [eos] in
    every row and leaves all other scores as they are; beyond [min_length] it
    returns the scores untouched. A strategy constructed with a single
    integer [eos] holds the one-element list of that id. *)
Theorem ensure_min_length_masks_eos
    (self : state) (a : tensor2 nat) (log_probs : tensor2 Q) :
  alive_seq self = Some a →
  Forall (λ e, e < ncols log_probs) (eos self) →
  ((Z.of_nat (ncols a) ≤ min_length self)%Z →
     ∃ lp', ensure_min_length self log_probs = Ok lp'
       ∧ ncols lp' = ncols log_probs ∧ nrows lp' = nrows log_probs
       ∧ ∀ i j x, entry log_probs i j = Some x →
           entry lp' i j
           = Some (if decide (j ∈ eos self) then min_length_sentinel else x))
  ∧ ((min_length self < Z.of_nat (ncols a))%Z →
       ensure_min_length self log_probs = Ok log_probs)
  ∧ (∀ pad bos e unk start batch_size parallel_paths min_length
       block_ngram_repeat exclusion_tokens return_attention max_length
       ban_unk_token,
       ∃ s, __init__ pad bos (EosInt e) unk start batch_size parallel_paths
              min_length block_ngram_repeat exclusion_tokens return_attention
              max_length ban_unk_token = Ok s
            ∧ eos s = [e]).
Proof.
  intros Ha Heos. split; [|split].
  - intros Hlen. unfold ensure_min_length, __len__. rewrite Ha. simpl.
    rewrite decide_True by done. rewrite set_columns_Ok by done.
    eexists. split; [reflexivity|]. simpl. split; [done|]. split.
    { unfold nrows. simpl. by rewrite length_fmap. }
    intros i j x. unfold entry. simpl. rewrite list_lookup_fmap.
    destruct (rows log_probs !! i) as [r|]; simpl; [|done].
    apply lookup_foldl_insert.
  - intros Hlen. unfold ensure_min_length, __len__. rewrite Ha. simpl.
    rewrite decide_False by lia. done.
  - intros p b e u st bs pp mn bnr ex ra mx bu. unfold __init__.
    destruct (alloc_dicts_total (bs * pp) []) as (ls & h & ->).
    eexists. split; reflexivity.
Qed.

(** C8 on two paths that have only their start token, with
    [min_length = 2]: the column of eos (token 2) becomes [-65504]. *)
Lemma ensure_min_length_masks_eos_witness :
  ensure_min_length Scenario.two_paths Scenario.scores
  = Ok (Tensor2 6 [[(-7)%Q; (-6)%Q; min_length_sentinel; (-5)%Q; (-2)%Q; (-3)%Q];
                   [(-7)%Q; (-6)%Q; min_length_sentinel; (-5)%Q; (-3)%Q; (-1)%Q]]).
Proof.
  destruct (ensure_min_length_masks_eos Scenario.two_paths
              (Tensor2 1 [[1]; [1]]) Scenario.scores eq_refl) as (H & _ & _).
  { repeat constructor. }
  destruct H as (lp' & Hrun & _); [simpl; lia|].
  rewrite Hrun. vm_compute in Hrun. injection Hrun as <-. reflexivity.
Defined.

Lemma count_ne_nonempty (v : nat) (t : tensor2 nat) :
  0 < nrows t → count_ne v t ≠ [].
Proof.
  unfold nrows, count_ne. destruct (rows t); simpl; [lia | done].
Qed.

(** C9. [initialize] makes the alive sequence the
    [(batch_size * parallel_paths, 1)] tensor filled with the start token and
    clears every finished flag. Without a prefix the bounds are kept. With a
    prefix that has one row per path it stores the prefix without its first
    column, adds to [max_length] the largest number of non-pad tokens of a
    row of the stored prefix minus one, and to [min_length] the smallest
    such number minus one. *)
Theorem initialize_starts_paths (self : state) :
  let n := batch_size self * parallel_paths self in
  let start_seq := full n 1 (start self) in
  let flags := replicate (batch_size self) (replicate (parallel_paths self) false) in
  (∃ s, initialize None self = (Ok (), s)
     ∧ alive_seq s = Some start_seq ∧ is_finished_list s = Some flags
     ∧ target_prefix s = Some None
     ∧ max_length s = max_length self ∧ min_length s = min_length self)
  ∧ (∀ prefix : tensor2 nat,
       nrows prefix = n → 0 < n →
       let stored := slice_cols 1 prefix in
       ∃ s mx mn, initialize (Some prefix) self = (Ok (), s)
         ∧ alive_seq s = Some start_seq ∧ is_finished_list s = Some flags
         ∧ target_prefix s = Some (Some stored)
         ∧ is_max mx (count_ne (pad self) stored)
         ∧ is_min mn (count_ne (pad self) stored)
         ∧ max_length s = (max_length self + (mx - 1))%Z
         ∧ min_length s = (min_length self + (mn - 1))%Z)
  ∧ nrows start_seq = n ∧ ncols start_seq = 1
  ∧ Forall (λ row, row = [start self]) (rows start_seq)
  ∧ Forall (Forall (λ b, b = false)) flags.
Proof.
  intros n start_seq flags. split; [|split; [|split; [|split; [|split]]]].
  - eexists. split; [reflexivity|]. repeat split.
  - intros prefix Hrows Hn stored. unfold initialize.
    rewrite decide_True by exact Hrows. cbn [pad set_is_finished_list set_alive_seq].
    assert (Hne : count_ne (pad self) stored ≠ []).
    { apply count_ne_nonempty. unfold stored, slice_cols, nrows in *. simpl.
      rewrite length_fmap. lia. }
    destruct (py_max_spec _ Hne) as (mx & Emx & Hmx).
    destruct (py_min_spec _ Hne) as (mn & Emn & Hmn).
    fold stored. rewrite Emx, Emn.
    exists (set_target_prefix (Some (Some stored))
              (set_min_length (min_length self + (mn - 1))
                 (set_max_length (max_length self + (mx - 1))
                    (set_is_finished_list (Some flags)
                       (set_alive_seq (Some start_seq) self))))), mx, mn.
    repeat split; try done; apply Hmx || apply Hmn.
  - unfold nrows, start_seq, full. simpl. apply length_replicate.
  - done.
  - unfold start_seq, full. simpl. apply Forall_replicate. done.
  - unfold flags. apply Forall_replicate, Forall_replicate. done.
Qed.

(** C9 on the two-path scenario: the prefix [[1 4 5] [1 5 0]] is stored as
    [[4 5] [5 0]]; its rows hold 2 and 1 non-pad tokens, so [max_length]
    grows by 1 and [min_length] by 0. *)
Lemma initialize_starts_paths_witness :
  ∃ s, initialize (Some Scenario.prefix) Scenario.two_paths = (Ok (), s)
    ∧ alive_seq s = Some (Tensor2 1 [[1]; [1]])
    ∧ target_prefix s = Some (Some (Tensor2 2 [[4; 5]; [5; 0]]))
    ∧ max_length s = 11%Z ∧ min_length s = 2%Z.
Proof.
  destruct (initialize_starts_paths Scenario.two_paths) as (_ & H & _).
  destruct (H Scenario.prefix eq_refl) as (s & mx & mn & Hrun & Ha & _ & Hp & _);
    [simpl; lia|].
  exists s. split; [exact Hrun|]. split; [exact Ha|]. split; [exact Hp|].
  vm_compute in Hrun. injection Hrun as <-. split; reflexivity.
Defined.

(** C10. A prefix whose number of rows is not
    [batch_size * parallel_paths] makes [initialize] fail on its assertion;
    the state it leaves has the prefix attribute and both length bounds as
    they were before the call. *)
Theorem initialize_rejects_untiled_prefix (self : state) (prefix : tensor2 nat) :
  nrows prefix ≠ batch_size self * parallel_paths self →
  ∃ s, initialize (Some prefix) self = (Raise AssertionError, s)
    ∧ target_prefix s = target_prefix self
    ∧ max_length s = max_length self
    ∧ min_length s = min_length self.
Proof.
  intros Hrows. unfold initialize.
  rewrite decide_False by exact Hrows.
  eexists. split; [reflexivity|]. repeat split.
Qed.

(** C10 on the two-path scenario with a prefix for a single path. *)
Lemma initialize_rejects_untiled_prefix_witness :
  ∃ s, initialize (Some Scenario.prefix_one) Scenario.two_paths
       = (Raise AssertionError, s)
    ∧ target_prefix s = Some None
    ∧ max_length s = 10%Z ∧ min_length s = 2%Z.
Proof.
  destruct (initialize_rejects_untiled_prefix Scenario.two_paths Scenario.prefix_one)
    as (s & Hrun & Hp & Hmax & Hmin); [vm_compute; lia|].
  exists s. split; [exact Hrun|]. split; [exact Hp|]. split; [exact Hmax | exact Hmin].
Defined.

(** ** [DecodeStrategy]: the forced prefix *)

Lemma penalty_zero (x : Q) : (x - prefix_penalty * 0)%Q = x.
Proof.
  destruct x as [n d]. unfold Qminus, Qplus, Qmult, Qopp. simpl.
  f_equal; [lia | apply Pos.mul_1_r].
Qed.

Lemma penalty_pick (x : Q) :
  (x - prefix_penalty * (1 - inject_Z (Z.of_nat 1)))%Q = x.
Proof. apply penalty_zero. Qed.

Lemma penalty_other (x : Q) :
  (x - prefix_penalty * (1 - inject_Z (Z.of_nat 0)))%Q = (x - prefix_penalty)%Q.
Proof. reflexivity. Qed.

(** The penalty keeps the forced token on top of every token whose score
    exceeded its own by less than the penalty. *)
Lemma penalty_keeps_pick_on_top (x xp : Q) :
  (x - xp < prefix_penalty)%Q → (x - prefix_penalty < xp)%Q.
Proof.
  unfold prefix_penalty. intros H.
  apply Qlt_minus_iff. apply Qlt_minus_iff in H.
  eapply Qlt_compat; [reflexivity| |exact H]. ring.
Qed.

Lemma forced_spec (self : state) (p : nat) :
  forced self p = true ↔ (p ∉ eos self) ∧ p ≠ pad self.
Proof.
  unfold forced. rewrite bool_decide_eq_true, not_elem_of_app.
  rewrite list_elem_of_singleton. done.
Qed.

Lemma forced_false_spec (self : state) (p : nat) :
  forced self p = false ↔ p ∈ eos self ∨ p = pad self.
Proof.
  unfold forced. rewrite bool_decide_eq_false.
  rewrite elem_of_app, list_elem_of_singleton.
  split; [|tauto]. intros H. destruct (decide (p ∈ eos self)); [tauto|].
  destruct (decide (p = pad self)); tauto.
Qed.

Lemma mask_pathid_spec (self : state) (picks : list nat) (i : nat) :
  i ∈ (filter (λ c : nat * nat, negb (forced self c.2))
         (zip (seq 0 (length picks)) picks)).*1
  ↔ ∃ p, picks !! i = Some p ∧ forced self p = false.
Proof.
  rewrite list_elem_of_fmap. split.
  - intros ([i' p] & -> & Hin). apply list_elem_of_filter in Hin as [Hf Hin].
    apply elem_of_zip_seq in Hin as [_ Hp]. rewrite Nat.sub_0_r in Hp.
    exists p. split; [done|]. simpl in Hf. by destruct (forced self p).
  - intros (p & Hp & Hf). exists (i, p). split; [done|].
    apply list_elem_of_filter. split.
    + simpl. by rewrite Hf.
    + apply elem_of_zip_seq. rewrite Nat.sub_0_r. split; [lia|done].
Qed.

Lemma pick_coo_spec (self : state) (picks : list nat) (i p : nat) :
  (i, p) ∈ filter (λ c : nat * nat, forced self c.2) (zip (seq 0 (length picks)) picks)
  ↔ picks !! i = Some p ∧ forced self p = true.
Proof.
  rewrite list_elem_of_filter, elem_of_zip_seq, Nat.sub_0_r. simpl.
  rewrite Is_true_true. split; [tauto|]. intros [? ?]. repeat split; [done|lia|done].
Qed.

Lemma zip_with_zero_row (row : list Q) (ds : list Q) :
  length ds = length row → Forall (λ d, d = 0%Q) ds →
  zip_with (λ x d, (x - prefix_penalty * d)%Q) row ds = row.
Proof.
  revert ds. induction row as [|x row IH]; intros [|d ds] Hlen Hds; simpl in *;
    try done.
  inversion_clear Hds as [|?? -> Hds']. rewrite penalty_zero. f_equal.
  apply IH; [lia | done].
Qed.

Lemma dropdown_row_length (coo : list (nat * nat)) (m i : nat) :
  length (dropdown_row coo m i) = m.
Proof. unfold dropdown_row. by rewrite !length_fmap, length_seq. Qed.

Lemma dropdown_row_lookup (self : state) (picks : list nat) (m i j : nat) :
  j < m →
  dropdown_row (filter (λ c : nat * nat, forced self c.2)
                  (zip (seq 0 (length picks)) picks)) m i !! j
  = Some (1 - inject_Z (Z.of_nat
            (if decide (picks !! i = Some j ∧ forced self j = true) then 1 else 0)))%Q.
Proof.
  intros Hj. unfold dropdown_row. rewrite !list_lookup_fmap, lookup_seq_lt by done.
  simpl. rewrite (count_zip_seq (λ c : nat * nat, forced self c.2) picks 0 i j).
  apply (f_equal (λ k, Some (1 - inject_Z (Z.of_nat k))%Q)).
  apply decide_ext. rewrite Nat.sub_0_r. simpl. rewrite Is_true_true.
  split; [tauto|]. intros [? ?]. repeat split; [lia|done|done].
Qed.

(** C2 as the claim words it does not hold: "only the prescribed token can
    be selected". The other tokens lose [10000] and no more, so a token that
    led the prescribed one by more than that stays ahead. Here the prefix
    prescribes the unknown token 3, which the strategy bans: after
    [ensure_unk_removed] its score is [-65504]; [target_prefixing] leaves it
    there and brings token 4 from [-1] to [-10001], which is the highest
    score of the row. *)
Lemma target_prefixing_can_select_another_token :
  ∃ lp lp',
    ensure_unk_removed Scenario.unk_prefixed Scenario.scores_one = Ok lp
    ∧ alive_seq Scenario.unk_prefixed = Some (Tensor2 1 [[1]])
    ∧ target_prefix Scenario.unk_prefixed = Some (Some (Tensor2 2 [[3; 4]]))
    ∧ forced Scenario.unk_prefixed 3 = true
    ∧ target_prefixing Scenario.unk_prefixed lp = Ok lp'
    ∧ rows lp' = [[(-10007)%Q; (-10006)%Q; (-10004)%Q; (-65504)%Q;
                   (-10001)%Q; (-10003)%Q]]
    ∧ entry lp' 0 3 = Some (-65504)%Q
    ∧ entry lp' 0 4 = Some (-10001)%Q
    ∧ (-65504 < -10001)%Q.
Proof.
  eexists _, _. split; [vm_compute; reflexivity|].
  split; [reflexivity|]. split; [reflexivity|]. split; [reflexivity|].
  split; [vm_compute; reflexivity|].
  split; [reflexivity|]. split; [reflexivity|]. split; reflexivity.
Qed.

(** C2, amended. Let the strategy hold a forced prefix with one row per row of
    [log_probs], and let [step] be the length of the alive sequence. While
    [1 <= step <= ] the width of the prefix, [target_prefixing] returns scores
    of the same shape in which, for every path whose token [p] at position
    [step - 1] of the prefix is neither an eos id nor pad, the score of [p]
    is kept and the score of every other token is lowered by [10000], so
    that [p] outranks every token whose score did not exceed its own by
    [10000] or more; the rows of the paths whose token there is an eos id or
    pad are returned as they were. Once [step] exceeds the width of the prefix,
    [target_prefixing] returns [log_probs] itself and
    [maybe_update_target_prefix] leaves the state, hence the stored prefix,
    as it is. *)
Theorem target_prefixing_forces_prefix
    (self : state) (a prefix : tensor2 nat) (log_probs : tensor2 Q) :
  alive_seq self = Some a →
  target_prefix self = Some (Some prefix) →
  wf prefix → wf log_probs → nrows prefix = nrows log_probs →
  let step := ncols a in
  (1 ≤ step ≤ ncols prefix →
   (∀ i p, entry prefix i (step - 1) = Some p →
           forced self p = true → p < ncols log_probs) →
   ∃ lp', target_prefixing self log_probs = Ok lp'
     ∧ ncols lp' = ncols log_probs ∧ nrows lp' = nrows log_probs
     ∧ ∀ i p, entry prefix i (step - 1) = Some p →
         ((p ∉ eos self) ∧ p ≠ pad self →
            (∀ j x, entry log_probs i j = Some x →
               entry lp' i j = Some (if decide (j = p) then x
                                     else (x - prefix_penalty)%Q))
            ∧ (∀ j x xp, j ≠ p →
                 entry log_probs i j = Some x → entry log_probs i p = Some xp →
                 (x - xp < prefix_penalty)%Q →
                 ∃ y yp, entry lp' i j = Some y ∧ entry lp' i p = Some yp
                         ∧ (y < yp)%Q))
         ∧ (p ∈ eos self ∨ p = pad self →
              rows lp' !! i = rows log_probs !! i))
  ∧ (ncols prefix < step →
     target_prefixing self log_probs = Ok log_probs
     ∧ ∀ select_index,
         maybe_update_target_prefix select_index self = (Ok (), self)).
Proof.
  intros Ha Hpre Hwfp Hwfl Hrows step. split.
  - intros Hstep Hvocab.
    unfold target_prefixing, __len__. rewrite Ha, Hpre. simpl.
    fold step. rewrite decide_True by lia.
    destruct (column_Ok prefix (step - 1) Hwfp) as (picks & Ecol & Hlen & Hpicks);
      [lia|].
    replace (Z.of_nat step - 1)%Z with (Z.of_nat (step - 1)) by lia.
    rewrite Ecol. simpl.
    set (en := zip (seq 0 (length picks)) picks).
    set (coo := filter (λ c : nat * nat, forced self c.2) en).
    set (ids := (filter (λ c : nat * nat, negb (forced self c.2)) en).*1).
    destruct (decide (0 < length coo)) as [Hcoo|Hcoo]; cycle 1.
    { (* no path is forced at this step *)
      exists log_probs. split; [done|]. split; [done|]. split; [done|].
      intros i p Hp. split; [|done]. intros Hforced%forced_spec.
      exfalso. apply Hcoo. rewrite <- Hpicks in Hp.
      assert (Hin : (i, p) ∈ coo) by by apply pick_coo_spec.
      destruct coo; [by apply elem_of_nil in Hin | simpl; lia]. }
    assert (Hbounds : Forall (λ c : nat * nat, c.1 < nrows log_probs ∧ c.2 < ncols log_probs) coo).
    { apply Forall_forall. intros [i p] [Hp Hf]%pick_coo_spec. simpl. split.
      - apply lookup_lt_Some in Hp. lia.
      - apply (Hvocab i p); [by rewrite <- Hpicks | done]. }
    unfold sparse_ones_to_dense.
    assert (Hids : Forall (λ i, i < nrows log_probs) ids).
    { apply Forall_forall. intros i (p & Hp & _)%mask_pathid_spec.
      apply lookup_lt_Some in Hp. lia. }
    set (n := nrows log_probs) in *. set (m := ncols log_probs) in *.
    (* the rows of [dropdowns] after the optional masking *)
    set (dd := (λ i, dropdown_row coo m i) <$> seq 0 n).
    assert (∃ dd' : list (list Q),
      (dropdowns ← (if decide (0 < length ids)
                    then path_mask ← index_mask n ids;
                         Ok (masked_fill_rows path_mask 0%Q
                               (tmap (λ p, (1 - p)%Q)
                                  (Tensor2 m ((λ i, (λ j, inject_Z (Z.of_nat
                                     (length (filter (λ c, c = (i, j)) coo))))
                                     <$> seq 0 m) <$> seq 0 n))))
                    else Ok (tmap (λ p, (1 - p)%Q)
                               (Tensor2 m ((λ i, (λ j, inject_Z (Z.of_nat
                                  (length (filter (λ c, c = (i, j)) coo))))
                                  <$> seq 0 m) <$> seq 0 n))));
       Ok (map2 (λ x d, (x - prefix_penalty * d)%Q) log_probs dropdowns))
      = Ok (Tensor2 m (zip_with (zip_with (λ x d, (x - prefix_penalty * d)%Q))
                         (rows log_probs) dd'))
      ∧ length dd' = n
      ∧ ∀ i, i < n →
          dd' !! i = Some (if bool_decide (i ∈ ids)
                           then (λ _, 0%Q) <$> dropdown_row coo m i
                           else dropdown_row coo m i)) as (dd' & -> & Hddlen & Hdd).
    { assert (Edd : tmap (λ p, (1 - p)%Q)
                (Tensor2 m ((λ i, (λ j, inject_Z (Z.of_nat
                   (length (filter (λ c, c = (i, j)) coo))))
                   <$> seq 0 m) <$> seq 0 n)) = Tensor2 m dd).
      { unfold tmap, dd, dropdown_row. simpl. by rewrite <- list_fmap_compose. }
      rewrite Edd. clear Edd.
      destruct (decide (0 < length ids)) as [Hmask|Hmask].
      - unfold index_mask. rewrite decide_True by exact Hids. simpl.
        unfold masked_fill_rows, map2. simpl.
        eexists. split; [reflexivity|]. split.
        + rewrite length_zip_with, length_fmap, length_seq.
          unfold dd. rewrite length_fmap, length_seq. lia.
        + intros i Hi. rewrite lookup_zip_with, list_lookup_fmap.
          rewrite lookup_seq_lt by done. simpl. unfold dd.
          rewrite list_lookup_fmap, lookup_seq_lt by done. simpl. done.
      - unfold map2. simpl. exists dd. split; [done|]. split.
        + unfold dd. by rewrite length_fmap, length_seq.
        + intros i Hi. unfold dd. rewrite list_lookup_fmap, lookup_seq_lt by done.
          simpl. rewrite bool_decide_eq_false_2; [done|].
          intros Hin. destruct ids; [by apply elem_of_nil in Hin | simpl in Hmask; lia]. }
    eexists. split; [reflexivity|]. simpl. split; [done|]. split.
    { unfold nrows at 1. simpl. rewrite length_zip_with. fold n. unfold n, nrows in *. lia. }
    intros i p Hp. rewrite <- Hpicks in Hp.
    assert (Hi : i < n) by (apply lookup_lt_Some in Hp; unfold n; lia).
    split.
    + (* a forced row *)
      intros Hf%forced_spec.
      match goal with |- ?A ∧ _ => assert (Hentry : A) end; cycle 1.
      { split; [exact Hentry|]. intros j x xp Hne Hx Hxp Hgap.
        exists (x - prefix_penalty)%Q, xp.
        rewrite (Hentry j x Hx), (Hentry p xp Hxp).
        rewrite decide_False by done. rewrite decide_True by done.
        repeat split. by apply penalty_keeps_pick_on_top. }
      intros j x Hx. unfold entry in *. simpl.
      rewrite lookup_zip_with, (Hdd i Hi).
      destruct (rows log_probs !! i) as [row|] eqn:Erow; simpl in *; [|done].
      rewrite bool_decide_eq_false_2; cycle 1.
      { intros (p' & Hp' & Hf')%mask_pathid_spec. congruence. }
      rewrite lookup_zip_with, Hx. simpl.
      assert (Hj : j < m).
      { apply lookup_lt_Some in Hx.
        pose proof (proj1 (Forall_lookup _ _) Hwfl i row Erow) as Hr.
        simpl in Hr. unfold m. lia. }
      unfold coo, en. rewrite (dropdown_row_lookup self picks m i j Hj). simpl.
      f_equal. destruct (decide (j = p)) as [->|Hne].
      * rewrite decide_True by done. apply penalty_pick.
      * rewrite decide_False; [apply penalty_other|]. intros [? _]. congruence.
    + (* a row exempted from forcing *)
      intros Hf%forced_false_spec. simpl.
      rewrite lookup_zip_with, (Hdd i Hi).
      destruct (rows log_probs !! i) as [row|] eqn:Erow; simpl; [|done].
      rewrite bool_decide_eq_true_2 by (apply mask_pathid_spec; eauto).
      f_equal. apply zip_with_zero_row.
      * rewrite length_fmap, dropdown_row_length.
        pose proof (proj1 (Forall_lookup _ _) Hwfl i row Erow) as Hr. done.
      * apply Forall_fmap, Forall_true. done.
  - intros Hstep. split.
    + unfold target_prefixing, __len__. rewrite Ha, Hpre. simpl.
      fold step. rewrite decide_False by lia. done.
    + intros sel. unfold maybe_update_target_prefix, __len__.
      rewrite Hpre, Ha. simpl. fold step. rewrite decide_True by lia. done.
Qed.

(** C2 at the second step of the two-path scenario, with the stored prefix
    [[4 5] [5 0]]: the first path is forced to token 5, the second, whose
    prefix is exhausted (pad), keeps its scores. *)
Lemma target_prefixing_forces_prefix_witness :
  target_prefixing Scenario.two_paths_prefixed Scenario.scores
  = Ok (Tensor2 6
          [[(-10007)%Q; (-10006)%Q; (-10001)%Q; (-10005)%Q; (-10002)%Q; (-3)%Q];
           [(-7)%Q; (-6)%Q; (-4)%Q; (-5)%Q; (-3)%Q; (-1)%Q]]).
Proof.
  destruct (target_prefixing_forces_prefix Scenario.two_paths_prefixed
              (Tensor2 2 [[1; 4]; [1; 5]]) (Tensor2 2 [[4; 5]; [5; 0]])
              Scenario.scores eq_refl eq_refl) as [H _].
  - repeat constructor.
  - repeat constructor.
  - reflexivity.
  - destruct H as (lp' & Hrun & _).
    + simpl. lia.
    + intros [|[|i]] p; vm_compute; intros [= <-]; try discriminate; lia.
    + rewrite Hrun. vm_compute in Hrun. injection Hrun as <-. reflexivity.
Defined.

(** ** [DecodeStrategy]: the tables of forbidden tokens *)

(** The loop of [maybe_update_forbidden_tokens], started in a store [hc]
    that extends the store [h0] in which the old tables [old] live. *)
Lemma update_paths_spec (excl : gset nat) (k : nat) (old : list loc) (h0 : heap) :
  0 < k → Forall (dict_ok h0) old →
  ∀ (paths : list (nat * list nat)) (hc : heap),
    length h0 ≤ length hc → agree_below (length h0) h0 hc →
    Forall (λ p, p.1 < length old ∧ k ≤ length p.2) paths →
    ∃ ds h', update_paths excl (Z.of_nat k) old paths hc = Ok (ds, h')
      ∧ length hc ≤ length h'
      ∧ agree_below (length hc) hc h'
      ∧ length ds = length paths
      ∧ ∀ i src row d, paths !! i = Some (src, row) → ds !! i = Some d →
          ∃ l, old !! src = Some l
            ∧ dict_ok h' d
            ∧ Forall (λ v, length hc ≤ v) (dict_locs h' d)
            ∧ table h' d = record_ngram excl k row (table h0 l).
Proof.
  intros Hk Hold paths.
  induction paths as [|[src row] paths IH]; intros hc Hlen Hag Hpaths.
  - exists [], hc. simpl. split; [done|]. split; [done|].
    split; [apply agree_below_refl|]. split; [done|]. intros i ???? Hi.
    by rewrite lookup_nil in Hi.
  - inversion_clear Hpaths as [|?? [Hsrc Hrow] Hpaths']. simpl in Hsrc, Hrow.
    destruct (lookup_lt_is_Some_2 old src Hsrc) as [l El].
    pose proof (proj1 (Forall_lookup _ _) Hold src l El) as Hl0.
    destruct (dict_frame_below (length h0) h0 hc l Hl0) as (Hlc & Tlc & _);
      [done | done |].
    destruct (deepcopy_spec hc l Hlc) as (h1 & Ecopy & Hlen1 & Hag1 & Hok1 & Hlocs1 & T1).
    set (d := length hc) in *.
    (* the update of the copy *)
    assert (∃ h3,
      (if decide (list_to_set (slice_from (- Z.of_nat k) row) ∩ excl ≠ ∅)
       then Ok h1
       else h ← dict_setdefault_set d
                  (slice_to (-1) (slice_from (- Z.of_nat k) row)) h1;
            sl ← dict_getitem d (slice_to (-1) (slice_from (- Z.of_nat k) row)) h;
            last_token ← getitem (-1) (slice_from (- Z.of_nat k) row);
            set_add sl last_token h) = Ok h3
      ∧ length h1 ≤ length h3
      ∧ agree_below d h1 h3
      ∧ dict_ok h3 d
      ∧ Forall (λ v, d ≤ v) (dict_locs h3 d)
      ∧ table h3 d = record_ngram excl k row (table h0 l))
      as (h3 & Eupd & Hlen3 & Hag3 & Hok3 & Hlocs3 & T3).
    { unfold record_ngram. rewrite slice_from_neg by done.
      set (current_ngram := drop (length row - k) row).
      assert (Hng : length current_ngram = k).
      { unfold current_ngram. rewrite length_drop. lia. }
      destruct (decide (list_to_set current_ngram ∩ excl ≠ ∅)) as [Hex|Hex].
      { exists h1. split; [done|]. split; [done|].
        split; [apply agree_below_refl|]. split; [done|]. split; [done|].
        by rewrite T1, Tlc. }
      destruct (last current_ngram) as [tok|] eqn:Elast; cycle 1.
      { apply last_None in Elast. rewrite Elast in Hng. simpl in Hng. lia. }
      rewrite slice_to_minus_1, Hng, (getitem_minus_1 current_ngram tok Elast).
      set (key := take (k - 1) current_ngram).
      destruct (setdefault_spec h1 d key Hok1)
        as (h2 & -> & Hlen2 & Hsame2 & Hok2 & Hlocs2 & T2 & Hkey2).
      destruct (add_spec h2 d key tok Hok2 Hkey2)
        as (sl & h3 & Eget & Eadd & Hsl & Hlen3 & Hsame3 & Hok3 & Hlocs3 & T3).
      simpl. rewrite Eget. simpl. rewrite Eadd.
      assert (Hlocs2' : Forall (λ v, d ≤ v) (dict_locs h2 d)).
      { apply Forall_forall. intros v Hv.
        destruct (proj1 (Forall_forall _ _) Hlocs2 v Hv) as [Hin| ->]; [|simpl; lia].
        exact (proj1 (Forall_forall _ _) Hlocs1 v Hin). }
      exists h3. split; [done|]. split; [lia|]. split; [|split; [done|split]].
      - intros l' Hl'. rewrite Hsame3.
        + apply Hsame2; lia.
        + intros ->. pose proof (proj1 (Forall_forall _ _) Hlocs2' _ Hsl) as Hge.
          simpl in Hge. lia.
      - rewrite Hlocs3. exact Hlocs2'.
      - rewrite T3, T2, <- table_add_alter. by rewrite T1, Tlc. }
    (* the remaining paths *)
    subst d.
    destruct (IH h3) as (ds & h' & Erest & Hlen' & Hag' & Hds & Hrest);
      [lia | | done |].
    { eapply agree_below_trans; [exact Hlen | exact Hag |].
      eapply agree_below_trans; [| exact Hag1 | exact Hag3]. done. }
    exists (length hc :: ds), h'. simpl. rewrite El. simpl. rewrite Ecopy. simpl.
    rewrite Eupd. simpl. rewrite Erest. simpl.
    split; [done|]. split; [lia|]. split; [|split; [by rewrite Hds|]].
    { apply (agree_below_trans (length hc) (length hc) hc h1 h');
        [lia | exact Hag1 |].
      apply (agree_below_trans (length hc) (length h3) h1 h3 h');
        [lia | exact Hag3 | exact Hag']. }
    intros [|i] src' row' d' Hi Hd'; simpl in *.
    + injection Hi as <- <-. injection Hd' as <-. exists l. split; [done|].
      destruct (dict_frame_below (length h3) h3 h' (length hc) Hok3)
        as (Hok' & T' & L'); [done | done |].
      split; [done|]. split; [by rewrite L'|]. by rewrite T'.
    + destruct (Hrest i src' row' d' Hi Hd') as (l' & El' & Hok' & Hlocs' & T').
      exists l'. split; [done|]. split; [done|]. split; [|done].
      eapply Forall_impl; [exact Hlocs'|]. intros v Hv. simpl in *. lia.
Qed.

(** C4. Let [k = block_ngram_repeat > 0]. While the alive sequence is
    shorter than [k], [maybe_update_forbidden_tokens] changes nothing.
    Otherwise, in a store where the old tables are well formed, it returns
    a strategy whose [forbidden_tokens] holds one table per pair of
    [zip(select_indices, alive_seq)] and whose other attributes are as
    before; no object of the old store is modified; the table at position
    [i] is a dictionary made of objects allocated by this call only, and it
    holds the contents of the old table of path [select_indices[i]] with the
    [k] last tokens of sequence [i] recorded: their first [k - 1] tokens
    forbid the last one, unless one of the [k] tokens is in the exclusion
    set, in which case the contents are those of the old table. *)
Theorem maybe_update_forbidden_tokens_copies_and_records
    (self : state) (a : tensor2 nat) (k : nat) :
  block_ngram_repeat self = Z.of_nat k → 0 < k →
  alive_seq self = Some a →
  (ncols a < k → maybe_update_forbidden_tokens self = (Ok (), self))
  ∧ (k ≤ ncols a → wf a →
     ∀ sel, select_indices self = Some sel →
       Forall (λ i, i < length (forbidden_tokens self)) sel →
       Forall (dict_ok (store self)) (forbidden_tokens self) →
       ∃ self',
         maybe_update_forbidden_tokens self = (Ok (), self')
         ∧ self' = set_forbidden_tokens (forbidden_tokens self') (store self') self
         ∧ length (forbidden_tokens self') = length sel `min` nrows a
         ∧ (∀ l, l < length (store self) → store self' !! l = store self !! l)
         ∧ ∀ i src row,
             sel !! i = Some src → rows a !! i = Some row →
             ∃ d l, forbidden_tokens self' !! i = Some d
               ∧ forbidden_tokens self !! src = Some l
               ∧ dict_ok (store self') d
               ∧ Forall (λ v, length (store self) ≤ v) (dict_locs (store self') d)
               ∧ table (store self') d
                 = record_ngram (exclusion_tokens self) k row
                     (table (store self) l)).
Proof.
  intros Hk Hpos Ha. split.
  - intros Hshort. unfold maybe_update_forbidden_tokens, __len__.
    rewrite decide_False by lia. rewrite Ha. simpl.
    rewrite decide_True by lia. done.
  - intros Hlong Hwf sel Hsel Hrange Hok.
    unfold maybe_update_forbidden_tokens, __len__.
    rewrite decide_False by lia. rewrite Ha, Hsel. simpl.
    rewrite decide_False by lia. rewrite Hk.
    destruct (update_paths_spec (exclusion_tokens self) k (forbidden_tokens self)
                (store self) Hpos Hok (zip sel (rows a)) (store self))
      as (ds & h' & -> & _ & Hag & Hlen & Hds); [done | apply agree_below_refl | |].
    { apply Forall_forall. intros [src row] Hin. simpl. split.
      - apply elem_of_zip_l in Hin.
        exact (proj1 (Forall_forall _ _) Hrange src Hin).
      - apply elem_of_zip_r in Hin.
        rewrite (proj1 (Forall_forall _ _) Hwf row Hin). done. }
    exists (set_forbidden_tokens ds h' self). simpl.
    split; [done|]. split; [done|]. split; [|split; [exact Hag|]].
    { rewrite Hlen. apply length_zip. }
    intros i src row Hi Hrow.
    assert (Hzip : zip sel (rows a) !! i = Some (src, row)) by by apply lookup_zip_Some.
    destruct (lookup_lt_is_Some_2 ds i) as [d Hd].
    { rewrite Hlen. by eapply lookup_lt_Some. }
    destruct (Hds i src row d Hzip Hd) as (l & ?). by exists d, l.
Qed.

(** C4 on the bigram scenario: the path [1 4 5] holds the table
    [{(1,): {4}}] at location 0; after the update [forbidden_tokens] names
    a new dictionary at location 2 with contents
    [{(1,): {4}, (4,): {5}}], and the old dictionary still reads
    [{(1,): {4}}]. *)
Lemma maybe_update_forbidden_tokens_copies_and_records_witness :
  forbidden_tokens Scenario.bigram = [0]
  ∧ ∃ self', maybe_update_forbidden_tokens Scenario.bigram = (Ok (), self')
      ∧ forbidden_tokens self' = [2]
      ∧ table (store self') 2 = [([1], {[4]}); ([4], {[5]})]
      ∧ table (store self') 0 = [([1], {[4]})].
Proof.
  split; [reflexivity|].
  destruct (maybe_update_forbidden_tokens_copies_and_records Scenario.bigram
              (Tensor2 3 [[1; 4; 5]]) 2 eq_refl) as [_ H]; [lia | reflexivity |].
  destruct (H ltac:(simpl; lia) ltac:(repeat constructor) [0] eq_refl)
    as (self' & Hrun & _).
  - repeat constructor.
  - constructor; [|constructor].
    refine (bool_decide_unpack (dict_ok (store Scenario.bigram) 0) _).
    vm_compute. exact I.
  - exists self'. split; [exact Hrun|].
    vm_compute in Hrun. injection Hrun as <-.
    split; [reflexivity|]. split; reflexivity.
Defined.

Lemma alloc_dicts_closed (n : nat) (h : heap) :
  alloc_dicts n h = (seq (length h) n, h ++ replicate n (PyDict [])).
Proof.
  revert h. induction n as [|n IH]; intros h; simpl.
  - by rewrite app_nil_r.
  - rewrite IH. rewrite length_app. simpl. rewrite Nat.add_1_r.
    by rewrite <- app_assoc.
Qed.

(** X3. A new strategy holds one empty, well-formed table per path. *)
Theorem init_tables_ok
    (pad bos : nat) (eos : eos_arg) (unk start batch_size parallel_paths : nat)
    (min_length block_ngram_repeat : Z) (exclusion_tokens : gset nat)
    (return_attention : bool) (max_length : Z) (ban_unk_token : bool) :
  ∃ s, __init__ pad bos eos unk start batch_size parallel_paths min_length
         block_ngram_repeat exclusion_tokens return_attention max_length
         ban_unk_token = Ok s
    ∧ length (forbidden_tokens s) = batch_size * parallel_paths
    ∧ Forall (λ d, table (store s) d = []) (forbidden_tokens s)
    ∧ tables_ok s.
Proof.
  unfold __init__. rewrite alloc_dicts_closed. simpl.
  set (n := batch_size * parallel_paths).
  assert (Hd : ∀ d, d ∈ seq 0 n → replicate n (PyDict []) !! d = Some (PyDict [])).
  { intros d Hd%elem_of_seq. apply lookup_replicate_2. lia. }
  eexists. split; [reflexivity|]. unfold tables_ok. simpl.
  split; [apply length_seq|]. split.
  - apply Forall_forall. intros d Hin. unfold table. by rewrite (Hd d Hin).
  - apply Forall_forall. intros d Hin. unfold dict_ok, table.
    rewrite (Hd d Hin). simpl. repeat split; constructor.
Qed.

(** X2. [maybe_update_forbidden_tokens] succeeds and keeps the tables well
    formed and free of excluded tokens, whatever the block size. *)
Theorem maybe_update_forbidden_tokens_keeps_tables_ok
    (self : state) (a : tensor2 nat) (sel : list nat) :
  alive_seq self = Some a → wf a →
  select_indices self = Some sel →
  Forall (λ i, i < length (forbidden_tokens self)) sel →
  tables_ok self →
  ∃ self', maybe_update_forbidden_tokens self = (Ok (), self')
    ∧ tables_ok self'.
Proof.
  intros Ha Hwf Hsel Hrange Hok. unfold maybe_update_forbidden_tokens, __len__.
  destruct (decide (block_ngram_repeat self ≤ 0)%Z); [by exists self|].
  rewrite Ha. simpl.
  destruct (decide (Z.of_nat (ncols a) < block_ngram_repeat self)%Z);
    [by exists self|].
  rewrite Hsel. simpl.
  set (k := Z.to_nat (block_ngram_repeat self)).
  replace (block_ngram_repeat self) with (Z.of_nat k) by lia.
  destruct (update_paths_spec (exclusion_tokens self) k (forbidden_tokens self)
              (store self)) with (paths := zip sel (rows a)) (hc := store self)
    as (ds & h' & -> & _ & _ & Hlen & Hds);
    [lia | | done | apply agree_below_refl | |].
  { eapply Forall_impl; [exact Hok|]. by intros d [? _]. }
  { apply Forall_forall. intros [src row] Hin. simpl. split.
    - apply elem_of_zip_l in Hin.
      exact (proj1 (Forall_forall _ _) Hrange src Hin).
    - apply elem_of_zip_r in Hin.
      rewrite (proj1 (Forall_forall _ _) Hwf row Hin). lia. }
  eexists. split; [reflexivity|]. unfold tables_ok. simpl.
  apply Forall_lookup. intros i d Hd.
  destruct (lookup_lt_is_Some_2 (zip sel (rows a)) i) as [[src row] Hi].
  { rewrite <- Hlen. by eapply lookup_lt_Some. }
  destruct (Hds i src row d Hi Hd) as (l & El & Hokd & _ & ->).
  split; [done|]. apply record_ngram_clean.
  by apply (proj1 (Forall_lookup _ _) Hok src l El).
Qed.

(** X2 on the bigram scenario. *)
Lemma maybe_update_forbidden_tokens_keeps_tables_ok_witness :
  ∃ self', maybe_update_forbidden_tokens Scenario.bigram = (Ok (), self')
    ∧ tables_ok self'.
Proof.
  apply (maybe_update_forbidden_tokens_keeps_tables_ok Scenario.bigram
           (Tensor2 3 [[1; 4; 5]]) [0] eq_refl).
  - repeat constructor.
  - reflexivity.
  - repeat constructor.
  - constructor; [|constructor]. split.
    + refine (bool_decide_unpack (dict_ok (store Scenario.bigram) 0) _).
      vm_compute. exact I.
    + constructor; [|constructor].
      split; intros x _; apply not_elem_of_empty.
Defined.

(** ** [DecodeStrategy]: n-gram blocking *)

(** The loop of [block_ngram_repeats]: each listed path has the tokens
    forbidden for its current suffix blocked, and nothing else changes. *)
Lemma block_paths_spec (self : state) (n : Z) (paths : list (nat * list nat)) :
  NoDup paths.*1 →
  ∀ log_probs : tensor2 Q,
    Forall (λ p, p.1 < nrows log_probs
                 ∧ ∃ d, forbidden_tokens self !! p.1 = Some d
                     ∧ dict_ok (store self) d
                     ∧ ∀ s, table_get (slice_from (- n) p.2) (table (store self) d)
                            = Some s →
                            ∀ t, t ∈ s → t < ncols log_probs) paths →
    ∃ lp', block_paths self n paths log_probs = Ok lp'
      ∧ ncols lp' = ncols log_probs ∧ nrows lp' = nrows log_probs
      ∧ (∀ i, i ∉ paths.*1 → rows lp' !! i = rows log_probs !! i)
      ∧ ∀ i row d, (i, row) ∈ paths → forbidden_tokens self !! i = Some d →
          ∀ j x, entry log_probs i j = Some x →
            entry lp' i j
            = Some (blocked (table_get (slice_from (- n) row)
                               (table (store self) d)) j x).
Proof.
  induction paths as [|[i row] paths IH]; intros Hnd lp Hall.
  - exists lp. simpl. split; [done|]. split; [done|]. split; [done|].
    split; [done|]. intros ??? Hin. by apply elem_of_nil in Hin.
  - csimpl in *. apply NoDup_cons in Hnd as [Hnotin Hnd'].
    apply Forall_cons in Hall as [(Hi & d & Ed & Hok & Hrange) Hall'].
    simpl in Hi, Ed, Hrange. rewrite Ed. simpl.
    destruct (dict_get_table (store self) d (slice_from (- n) row) Hok)
      as (o & -> & Hget & Hset). simpl.
    (* the scores after this path *)
    assert (∃ lp1,
      match o with
      | Some sl => s ← read_set sl (store self);
                   set_entries i (elements s) ngram_sentinel lp
      | None => Ok lp
      end = Ok lp1
      ∧ ncols lp1 = ncols lp ∧ nrows lp1 = nrows lp
      ∧ (∀ i', i' ≠ i → rows lp1 !! i' = rows lp !! i')
      ∧ ∀ j x, entry lp i j = Some x →
          entry lp1 i j
          = Some (blocked (table_get (slice_from (- n) row)
                             (table (store self) d)) j x))
      as (lp1 & -> & Hc1 & Hr1 & Hother1 & Hrow1).
    { rewrite Hget. destruct o as [sl|]; simpl.
      - rewrite (read_set_Ok _ sl (Hset sl eq_refl)). simpl.
        destruct (set_entries_Ok i (elements (set_at (store self) sl))
                    ngram_sentinel lp Hi) as (lp1 & -> & ? & ? & ? & Hent).
        { apply Forall_forall. intros t Ht%elem_of_elements.
          apply (Hrange (set_at (store self) sl)); [by rewrite Hget | done]. }
        exists lp1. repeat split; try done. intros j x Hx.
        rewrite (Hent j x Hx). f_equal.
        destruct (decide (j ∈ elements (set_at (store self) sl))) as [Hj|Hj],
                 (decide (j ∈ set_at (store self) sl)) as [Hj'|Hj'];
          try done; exfalso.
        + apply Hj'. by apply elem_of_elements.
        + apply Hj. by apply elem_of_elements.
      - exists lp. by repeat split. }
    simpl.
    destruct (IH Hnd' lp1) as (lp' & -> & Hc & Hr & Hother & Hrows).
    { eapply Forall_impl; [exact Hall'|]. intros [i' row'] (? & d' & ? & ? & ?).
      simpl in *. split; [lia|]. exists d'. rewrite Hc1. by repeat split. }
    exists lp'. split; [done|]. split; [congruence|]. split; [congruence|]. split.
    + intros i' [Hne Hnotin']%not_elem_of_cons.
      rewrite Hother by done. by apply Hother1.
    + intros i' row' d' [[= -> ->]|Hin]%elem_of_cons Ed' j x Hx.
      * assert (d' = d) as -> by congruence.
        unfold entry. rewrite (Hother i Hnotin). by apply Hrow1.
      * apply (Hrows i' row' d' Hin Ed'). unfold entry in *.
        rewrite Hother1; [done|]. intros ->. apply Hnotin.
        apply list_elem_of_fmap. by exists (i, row').
Qed.

(** X1. What [block_ngram_repeats] does for a block size [k >= 2]: on every
    path it gives the score [-10e20] to exactly the tokens that the path's
    table forbids after the [k - 1] last tokens of its sequence; all other
    scores, and all rows beyond the alive paths, are returned as they were.
    (For [k = 1] see [block_ngram_repeats_misses_unigrams].) *)
Theorem block_ngram_repeats_blocks_suffix
    (self : state) (a : tensor2 nat) (log_probs : tensor2 Q) (k : nat) :
  block_ngram_repeat self = Z.of_nat k → 2 ≤ k →
  alive_seq self = Some a → k ≤ ncols a →
  nrows a ≤ nrows log_probs → nrows a ≤ length (forbidden_tokens self) →
  Forall (dict_ok (store self)) (forbidden_tokens self) →
  (∀ d key s t, d ∈ forbidden_tokens self → (key, s) ∈ table (store self) d →
                t ∈ s → t < ncols log_probs) →
  ∃ lp', block_ngram_repeats self log_probs = Ok lp'
    ∧ ncols lp' = ncols log_probs ∧ nrows lp' = nrows log_probs
    ∧ (∀ i, nrows a ≤ i → rows lp' !! i = rows log_probs !! i)
    ∧ ∀ i row d, rows a !! i = Some row → forbidden_tokens self !! i = Some d →
        ∀ j x, entry log_probs i j = Some x →
          entry lp' i j
          = Some (blocked (table_get (drop (length row - (k - 1)) row)
                             (table (store self) d)) j x).
Proof.
  intros Hk Hk2 Ha Hlen Hrows Hft Hok Hvocab.
  unfold block_ngram_repeats, __len__.
  rewrite decide_False by lia. rewrite Ha. simpl.
  rewrite decide_False by lia. rewrite Hk.
  replace (Z.of_nat k - 1)%Z with (Z.of_nat (k - 1)) by lia.
  assert (Hfst : (zip (seq 0 (nrows a)) (rows a)).*1 = seq 0 (nrows a)).
  { apply fst_zip. unfold nrows. by rewrite length_seq. }
  destruct (block_paths_spec self (Z.of_nat (k - 1))
              (zip (seq 0 (nrows a)) (rows a))) with (log_probs := log_probs)
    as (lp' & -> & Hc & Hr & Hother & Hpaths).
  { rewrite Hfst. apply NoDup_seq. }
  { apply Forall_forall. intros [i row] Hin. simpl.
    apply elem_of_zip_seq in Hin as [_ Hin]. rewrite Nat.sub_0_r in Hin.
    assert (Hi : i < nrows a) by by eapply lookup_lt_Some.
    split; [lia|].
    destruct (lookup_lt_is_Some_2 (forbidden_tokens self) i) as [d Ed]; [lia|].
    exists d. split; [done|].
    split; [exact (proj1 (Forall_lookup _ _) Hok i d Ed)|].
    intros s Hs%table_get_Some t Ht.
    apply (Hvocab d (slice_from (- Z.of_nat (k - 1)) row) s t); [|done|done].
    by eapply list_elem_of_lookup_2. }
  exists lp'. split; [done|]. split; [done|]. split; [done|]. split.
  - intros i Hi. apply Hother. rewrite Hfst. intros Hin%elem_of_seq. lia.
  - intros i row d Hrow Ed j x Hx.
    rewrite <- (slice_from_neg (k - 1) row) by lia.
    apply (Hpaths i row d); [|done|done].
    apply elem_of_zip_seq. rewrite Nat.sub_0_r. split; [lia | done].
Qed.

(** [block_ngram_repeats] does nothing when blocking is switched off or the
    sequences are still shorter than the block size. *)
Lemma block_ngram_repeats_idle
    (self : state) (a : tensor2 nat) (log_probs : tensor2 Q) :
  alive_seq self = Some a →
  (block_ngram_repeat self ≤ 0 ∨ Z.of_nat (ncols a) < block_ngram_repeat self)%Z →
  block_ngram_repeats self log_probs = Ok log_probs.
Proof.
  intros Ha Hidle. unfold block_ngram_repeats, __len__.
  destruct (decide (block_ngram_repeat self ≤ 0)%Z); [done|].
  rewrite Ha. simpl. rewrite decide_True by lia. done.
Qed.

(** X1 on the path [1 4 5] whose table reads [{(5,): {4}}]: token 4 is
    blocked, the other scores are kept. *)
Lemma block_ngram_repeats_blocks_suffix_witness :
  block_ngram_repeats Scenario.bigram_seen Scenario.scores_one
  = Ok (Tensor2 6 [[(-7)%Q; (-6)%Q; (-4)%Q; (-5)%Q; ngram_sentinel; (-3)%Q]]).
Proof.
  destruct (block_ngram_repeats_blocks_suffix Scenario.bigram_seen
              (Tensor2 3 [[1; 4; 5]]) Scenario.scores_one 2 eq_refl)
    as (lp' & Hrun & _).
  - lia.
  - reflexivity.
  - simpl. lia.
  - unfold nrows. simpl. lia.
  - unfold nrows. simpl. lia.
  - constructor; [|constructor].
    refine (bool_decide_unpack (dict_ok (store Scenario.bigram_seen) 0) _).
    vm_compute. exact I.
  - intros d key s t Hd%list_elem_of_singleton Hin Ht. subst d.
    change (table (store Scenario.bigram_seen) 0) with [([5], ({[4]} : gset nat))] in Hin.
    apply list_elem_of_singleton in Hin. injection Hin as _ ->.
    apply elem_of_singleton in Ht as ->. simpl. lia.
  - rewrite Hrun. vm_compute in Hrun. injection Hrun as <-. reflexivity.
Defined.

(** C3 fails for [block_ngram_repeat = 1]. After the token 4 is selected,
    [maybe_update_forbidden_tokens] records that the empty suffix forbids 4;
    at the next step [block_ngram_repeats] looks up the whole sequence
    [(1, 4)] instead of the empty suffix, finds nothing and returns the
    scores unchanged: token 4 keeps its score [-1] instead of the sentinel
    and may be selected again. *)
Theorem block_ngram_repeats_misses_unigrams :
  maybe_update_forbidden_tokens Scenario.unigram_start
  = (Ok (), Scenario.unigram)
  ∧ table (store Scenario.unigram) 1 = [([], {[4]})]
  ∧ forbidden_tokens Scenario.unigram = [1]
  ∧ block_ngram_repeats Scenario.unigram Scenario.scores_one
    = Ok Scenario.scores_one
  ∧ entry Scenario.scores_one 0 4 = Some (-1)%Q
  ∧ (-1)%Q ≠ ngram_sentinel.
Proof.
  split; [|split; [|split; [|split; [|split]]]]; try (vm_compute; reflexivity).
  discriminate.
Qed.

(** ** [DecodeStrategy]: what the tables record *)

(** The active branch of [maybe_update_forbidden_tokens], table by table. *)
Lemma update_tables_spec (self : state) (a : tensor2 nat) (k : nat) (sel : list nat) :
  block_ngram_repeat self = Z.of_nat k → 0 < k →
  alive_seq self = Some a → wf a → k ≤ ncols a →
  select_indices self = Some sel →
  Forall (λ i, i < length (forbidden_tokens self)) sel →
  Forall (dict_ok (store self)) (forbidden_tokens self) →
  ∃ forbidden h',
    maybe_update_forbidden_tokens self
    = (Ok (), set_forbidden_tokens forbidden h' self)
    ∧ length forbidden = length sel `min` nrows a
    ∧ ∀ i d, forbidden !! i = Some d →
        ∃ src row l, sel !! i = Some src ∧ rows a !! i = Some row
          ∧ forbidden_tokens self !! src = Some l
          ∧ length row = ncols a
          ∧ dict_ok h' d
          ∧ table h' d
            = record_ngram (exclusion_tokens self) k row (table (store self) l).
Proof.
  intros Hk Hpos Ha Hwf Hlong Hsel Hrange Hok.
  unfold maybe_update_forbidden_tokens, __len__.
  rewrite decide_False by lia. rewrite Ha, Hsel. simpl.
  rewrite decide_False by lia. rewrite Hk.
  destruct (update_paths_spec (exclusion_tokens self) k (forbidden_tokens self)
              (store self) Hpos Hok (zip sel (rows a)) (store self))
    as (ds & h' & -> & _ & Hag & Hlen & Hds); [done | apply agree_below_refl | |].
  { apply Forall_forall. intros [src row] Hin. simpl. split.
    - apply elem_of_zip_l in Hin.
      exact (proj1 (Forall_forall _ _) Hrange src Hin).
    - apply elem_of_zip_r in Hin.
      rewrite (proj1 (Forall_forall _ _) Hwf row Hin). done. }
  exists ds, h'. split; [done|]. split.
  { rewrite Hlen. apply length_zip. }
  intros i d Hd.
  destruct (lookup_lt_is_Some_2 (zip sel (rows a)) i) as [[src row] Hi].
  { rewrite <- Hlen. by eapply lookup_lt_Some. }
  destruct (Hds i src row d Hi Hd) as (l & El & Hokd & _ & Htab).
  apply lookup_zip_Some in Hi as [Hs Hr].
  exists src, row, l. repeat split; try done.
  apply (proj1 (Forall_forall _ _) Hwf row). by eapply list_elem_of_lookup_2.
Qed.

(** X4. Looking a table up after [maybe_update_forbidden_tokens] (block
    size [k >= 1], sequences of at least [k] tokens): the new table of
    path [i] forbids a token [x] after a key exactly when the old table of
    the selected path [select_indices[i]] did, or when the key is the first
    [k - 1] of the [k] last tokens of sequence [i], [x] is its last token and
    none of these [k] tokens is excluded. Nothing is forgotten and one
    n-gram at most is added. There are as many new tables as pairs of
    [zip(select_indices, alive_seq)]. *)
Theorem maybe_update_forbidden_tokens_adds_one_ngram
    (self : state) (a : tensor2 nat) (k : nat) (sel : list nat) :
  block_ngram_repeat self = Z.of_nat k → 0 < k →
  alive_seq self = Some a → wf a → k ≤ ncols a →
  select_indices self = Some sel →
  Forall (λ i, i < length (forbidden_tokens self)) sel →
  Forall (dict_ok (store self)) (forbidden_tokens self) →
  ∃ self', maybe_update_forbidden_tokens self = (Ok (), self')
    ∧ length (forbidden_tokens self') = length sel `min` nrows a
    ∧ ∀ i src row l d,
        sel !! i = Some src → rows a !! i = Some row →
        forbidden_tokens self !! src = Some l →
        forbidden_tokens self' !! i = Some d →
        ∀ key x,
          forbids (table (store self') d) key x
          ↔ forbids (table (store self) l) key x
            ∨ ((∀ y, y ∈ drop (length row - k) row → y ∉ exclusion_tokens self)
               ∧ key = take (k - 1) (drop (length row - k) row)
               ∧ last row = Some x).
Proof.
  intros Hk Hpos Ha Hwf Hlong Hsel Hrange Hok.
  destruct (update_tables_spec self a k sel Hk Hpos Ha Hwf Hlong Hsel Hrange Hok)
    as (forbidden & h' & -> & Hlen & Hds).
  eexists. split; [reflexivity|]. simpl. split; [done|].
  intros i src row l d Hs Hr Hl Hd key x.
  destruct (Hds i d Hd) as (src' & row' & l' & Hs' & Hr' & Hl' & Hrow & _ & ->).
  assert (src' = src) as -> by congruence.
  assert (row' = row) as -> by congruence.
  assert (l' = l) as -> by congruence.
  apply forbids_record_ngram; lia.
Qed.

(** X4 on the bigram scenario: the path [1 4 5] had [{(1,): {4}}]; its new
    table forbids 5 after 4 and still forbids 4 after 1. *)
Lemma maybe_update_forbidden_tokens_adds_one_ngram_witness :
  ∃ self', maybe_update_forbidden_tokens Scenario.bigram = (Ok (), self')
    ∧ forbidden_tokens self' = [2]
    ∧ forbids (table (store self') 2) [4] 5
    ∧ forbids (table (store self') 2) [1] 4.
Proof.
  destruct (maybe_update_forbidden_tokens_adds_one_ngram Scenario.bigram
              (Tensor2 3 [[1; 4; 5]]) 2 [0] eq_refl)
    as (self' & Hrun & _ & Hlook).
  - lia.
  - reflexivity.
  - repeat constructor.
  - simpl. lia.
  - reflexivity.
  - repeat constructor.
  - constructor; [|constructor].
    refine (bool_decide_unpack (dict_ok (store Scenario.bigram) 0) _).
    vm_compute. exact I.
  - exists self'. split; [exact Hrun|].
    assert (Hft : forbidden_tokens self' = [2]).
    { vm_compute in Hrun. by injection Hrun as <-. }
    split; [exact Hft|].
    assert (Hd : forbidden_tokens self' !! 0 = Some 2) by by rewrite Hft.
    split.
    + apply (Hlook 0 0 [1; 4; 5] 0 2 eq_refl eq_refl eq_refl Hd [4] 5).
      right. split; [|split; reflexivity].
      intros y _. apply not_elem_of_empty.
    + apply (Hlook 0 0 [1; 4; 5] 0 2 eq_refl eq_refl eq_refl Hd [1] 4).
      left. exists {[4]}. split; [reflexivity|]. by apply elem_of_singleton.
Defined.

(** X5. The tables keep recording the sequences. The decoding loop extends
    every alive sequence by one token and names in [select_indices] the
    path each sequence continues. If the table of that path records the
    sequence without its new token, then after
    [maybe_update_forbidden_tokens] the table of every path records its
    whole sequence: each window of [block_ngram_repeat] consecutive tokens
    free of excluded tokens is in the table. The tables stay well formed.
    This holds for every block size [k >= 1] and from the first step on,
    the sequences shorter than [k] having no window. *)
Theorem maybe_update_forbidden_tokens_keeps_cover
    (self : state) (a : tensor2 nat) (k : nat) (sel : list nat) :
  block_ngram_repeat self = Z.of_nat k → 0 < k →
  alive_seq self = Some a → wf a →
  select_indices self = Some sel →
  Forall (λ i, i < length (forbidden_tokens self)) sel →
  Forall (dict_ok (store self)) (forbidden_tokens self) →
  (∀ i src row l,
     sel !! i = Some src → rows a !! i = Some row →
     forbidden_tokens self !! src = Some l →
     covers (exclusion_tokens self) k (table (store self) l)
       (take (length row - 1) row)) →
  ∃ self', maybe_update_forbidden_tokens self = (Ok (), self')
    ∧ Forall (dict_ok (store self')) (forbidden_tokens self')
    ∧ ∀ i row d,
        rows a !! i = Some row → forbidden_tokens self' !! i = Some d →
        covers (exclusion_tokens self') k (table (store self') d) row.
Proof.
  intros Hk Hpos Ha Hwf Hsel Hrange Hok Hcov.
  destruct (decide (k ≤ ncols a)) as [Hlong|Hshort].
  - destruct (update_tables_spec self a k sel Hk Hpos Ha Hwf Hlong Hsel Hrange Hok)
      as (forbidden & h' & -> & Hlen & Hds).
    eexists. split; [reflexivity|]. simpl. split.
    { apply Forall_lookup. intros i d Hd.
      by destruct (Hds i d Hd) as (_ & _ & _ & _ & _ & _ & _ & ? & _). }
    intros i row d Hr Hd.
    destruct (Hds i d Hd) as (src & row' & l & Hs & Hr' & Hl & Hrow & _ & ->).
    assert (row' = row) as -> by congruence.
    intros p x Hp Hex Hlast.
    apply forbids_record_ngram; [lia | lia |].
    destruct (decide (p + k = length row)) as [Hend|Hin].
    + right. replace (length row - k) with p by lia.
      assert (Hw : take k (drop p row) = drop p row).
      { apply take_ge. rewrite length_drop. lia. }
      rewrite Hw in *. split; [done|]. split; [done|].
      rewrite <- Hlast. symmetry. apply last_drop. lia.
    + left.
      assert (Hw : take k (drop p (take (length row - 1) row)) = take k (drop p row)).
      { rewrite !take_drop_commute, take_take. f_equal. f_equal. lia. }
      specialize (Hcov i src row l Hs Hr Hl p x).
      rewrite Hw in Hcov. apply Hcov; [|done|done].
      rewrite length_take. lia.
  - exists self. split.
    { unfold maybe_update_forbidden_tokens, __len__.
      rewrite decide_False by lia. rewrite Ha. simpl.
      by rewrite decide_True by lia. }
    split; [done|]. intros i row d Hr _ p x Hp. exfalso.
    assert (length row = ncols a); [|lia].
    apply (proj1 (Forall_forall _ _) Hwf row). by eapply list_elem_of_lookup_2.
Qed.

(** X5 on the bigram scenario: the table [{(1,): {4}}] records [1 4]; after
    the update the new table records [1 4 5]. *)
Lemma maybe_update_forbidden_tokens_keeps_cover_witness :
  ∃ self', maybe_update_forbidden_tokens Scenario.bigram = (Ok (), self')
    ∧ covers ∅ 2 (table (store self') 2) [1; 4; 5].
Proof.
  destruct (maybe_update_forbidden_tokens_keeps_cover Scenario.bigram
              (Tensor2 3 [[1; 4; 5]]) 2 [0] eq_refl)
    as (self' & Hrun & _ & Hcov).
  - lia.
  - reflexivity.
  - repeat constructor.
  - reflexivity.
  - repeat constructor.
  - constructor; [|constructor].
    refine (bool_decide_unpack (dict_ok (store Scenario.bigram) 0) _).
    vm_compute. exact I.
  - intros [|i] src row l Hs Hr Hl; [|discriminate].
    injection Hs as <-. injection Hr as <-. injection Hl as <-.
    intros [|p] x Hp _ Hlast; [|simpl in Hp; lia].
    injection Hlast as <-.
    exists {[4]}. split; [reflexivity|]. by apply elem_of_singleton.
  - exists self'. split; [exact Hrun|].
    assert (Hft : forbidden_tokens self' = [2]).
    { vm_compute in Hrun. by injection Hrun as <-. }
    assert (Hex : exclusion_tokens self' = ∅).
    { vm_compute in Hrun. by injection Hrun as <-. }
    rewrite <- Hex. apply (Hcov 0 [1; 4; 5] 2 eq_refl). by rewrite Hft.
Defined.

(** X6. Blocking is sound for a block size [k >= 2]: when the table of a
    path records its sequence, every token [x] that would repeat an n-gram
    of the sequence receives the score [-10e20]. "Would repeat" means that
    some window of [k] consecutive tokens of the sequence, free of excluded
    tokens, consists of the [k - 1] last tokens of the sequence followed by
    [x]. *)
Theorem block_ngram_repeats_blocks_repeated_ngram
    (self : state) (a : tensor2 nat) (log_probs : tensor2 Q) (k : nat) :
  block_ngram_repeat self = Z.of_nat k → 2 ≤ k →
  alive_seq self = Some a → k ≤ ncols a →
  nrows a ≤ nrows log_probs → nrows a ≤ length (forbidden_tokens self) →
  Forall (dict_ok (store self)) (forbidden_tokens self) →
  (∀ d key s t, d ∈ forbidden_tokens self → (key, s) ∈ table (store self) d →
                t ∈ s → t < ncols log_probs) →
  (∀ i row d, rows a !! i = Some row → forbidden_tokens self !! i = Some d →
     covers (exclusion_tokens self) k (table (store self) d) row) →
  ∃ lp', block_ngram_repeats self log_probs = Ok lp'
    ∧ ∀ i row p x v,
        rows a !! i = Some row → p + k ≤ length row →
        take k (drop p row) = drop (length row - (k - 1)) row ++ [x] →
        (∀ y, y ∈ take k (drop p row) → y ∉ exclusion_tokens self) →
        entry log_probs i x = Some v →
        entry lp' i x = Some ngram_sentinel.
Proof.
  intros Hk Hk2 Ha Hlen Hrows Hft Hok Hvocab Hcov.
  unfold block_ngram_repeats, __len__.
  rewrite decide_False by lia. rewrite Ha. simpl.
  rewrite decide_False by lia. rewrite Hk.
  replace (Z.of_nat k - 1)%Z with (Z.of_nat (k - 1)) by lia.
  assert (Hfst : (zip (seq 0 (nrows a)) (rows a)).*1 = seq 0 (nrows a)).
  { apply fst_zip. unfold nrows. by rewrite length_seq. }
  destruct (block_paths_spec self (Z.of_nat (k - 1))
              (zip (seq 0 (nrows a)) (rows a))) with (log_probs := log_probs)
    as (lp' & -> & _ & _ & _ & Hpaths).
  { rewrite Hfst. apply NoDup_seq. }
  { apply Forall_forall. intros [i row] Hin. simpl.
    apply elem_of_zip_seq in Hin as [_ Hin]. rewrite Nat.sub_0_r in Hin.
    assert (Hi : i < nrows a) by by eapply lookup_lt_Some.
    split; [lia|].
    destruct (lookup_lt_is_Some_2 (forbidden_tokens self) i) as [d Ed]; [lia|].
    exists d. split; [done|].
    split; [exact (proj1 (Forall_lookup _ _) Hok i d Ed)|].
    intros s Hs%table_get_Some t Ht.
    apply (Hvocab d (slice_from (- Z.of_nat (k - 1)) row) s t); [|done|done].
    by eapply list_elem_of_lookup_2. }
  exists lp'. split; [done|].
  intros i row p x v Hrow Hp Hwin Hex Hv.
  assert (Hi : i < nrows a) by by eapply lookup_lt_Some.
  destruct (lookup_lt_is_Some_2 (forbidden_tokens self) i) as [d Ed]; [lia|].
  assert (Hin : (i, row) ∈ zip (seq 0 (nrows a)) (rows a)).
  { apply elem_of_zip_seq. rewrite Nat.sub_0_r. split; [lia|done]. }
  rewrite (Hpaths i row d Hin Ed x v Hv).
  rewrite slice_from_neg by lia.
  destruct (Hcov i row d Hrow Ed p x Hp Hex) as (s & Hs & Hx).
  { rewrite Hwin. by rewrite last_snoc. }
  assert (Hkey : take (k - 1) (take k (drop p row)) = drop (length row - (k - 1)) row).
  { rewrite Hwin. rewrite take_app_length'; [done|]. rewrite length_drop. lia. }
  rewrite Hkey in Hs. rewrite Hs. simpl. by rewrite decide_True.
Qed.

(** X6 on the path [1 4 5 4]: the bigram [4 5] is in the sequence and the
    sequence ends with 4, so token 5 is blocked. *)
Lemma block_ngram_repeats_blocks_repeated_ngram_witness :
  ∃ lp', block_ngram_repeats Scenario.bigram_cycle Scenario.scores_one = Ok lp'
    ∧ entry lp' 0 5 = Some ngram_sentinel.
Proof.
  destruct (block_ngram_repeats_blocks_repeated_ngram Scenario.bigram_cycle
              (Tensor2 4 [[1; 4; 5; 4]]) Scenario.scores_one 2 eq_refl)
    as (lp' & Hrun & Hblk).
  - lia.
  - reflexivity.
  - simpl. lia.
  - unfold nrows. simpl. lia.
  - unfold nrows. simpl. lia.
  - constructor; [|constructor].
    refine (bool_decide_unpack (dict_ok (store Scenario.bigram_cycle) 0) _).
    vm_compute. exact I.
  - intros d key s t Hd%list_elem_of_singleton Hin Ht. subst d.
    change (table (store Scenario.bigram_cycle) 0)
      with [([1], ({[4]} : gset nat)); ([4], {[5]}); ([5], {[4]})] in Hin.
    simpl.
    apply elem_of_cons in Hin as [Hin|Hin];
      [|apply elem_of_cons in Hin as [Hin|Hin];
        [|apply list_elem_of_singleton in Hin]];
      injection Hin as _ ->; apply elem_of_singleton in Ht as ->; lia.
  - intros [|i] row d Hr Hd; [|discriminate].
    injection Hr as <-. injection Hd as <-.
    intros [|[|[|p]]] x Hp _ Hlast; try (simpl in Hp; lia);
      injection Hlast as <-; eexists; (split; [reflexivity|]);
      by apply elem_of_singleton.
  - exists lp'. split; [exact Hrun|].
    apply (Hblk 0 [1; 4; 5; 4] 1 5 (-3)%Q eq_refl).
    + simpl. lia.
    + reflexivity.
    + intros y _. apply not_elem_of_empty.
    + reflexivity.
Defined.

(** ** [DecodeStrategy]: a block size of 1 *)

(** The loop of [block_ngram_repeats] changes nothing when no table has an
    entry for the n-gram looked up. *)
Lemma block_paths_idle (self : state) (n : Z) (paths : list (nat * list nat))
    (log_probs : tensor2 Q) :
  Forall (λ p, ∃ d, forbidden_tokens self !! p.1 = Some d
                 ∧ dict_ok (store self) d
                 ∧ table_get (slice_from (- n) p.2) (table (store self) d) = None)
    paths →
  block_paths self n paths log_probs = Ok log_probs.
Proof.
  induction paths as [|[i row] paths IH]; intros Hall; [done|].
  apply Forall_cons in Hall as [(d & Ed & Hok & Hnone) Hall]. simpl in *.
  rewrite Ed. simpl.
  destruct (dict_get_table (store self) d (slice_from (- n) row) Hok)
    as (o & -> & Hget & _). simpl.
  rewrite Hnone in Hget. destruct o; [done|]. simpl. by apply IH.
Qed.

(** With [block_ngram_repeat = 1] the key looked up is the whole sequence,
    which is not empty, while the keys of the tables are. *)
Lemma block_unigram_idle (self : state) (a : tensor2 nat) (log_probs : tensor2 Q) :
  block_ngram_repeat self = 1%Z →
  alive_seq self = Some a → wf a → 1 ≤ ncols a →
  Forall (dict_ok (store self)) (forbidden_tokens self) →
  keyless self →
  nrows a ≤ length (forbidden_tokens self) →
  block_ngram_repeats self log_probs = Ok log_probs.
Proof.
  intros Hk Ha Hwf Hlen Hok Hkeys Hft.
  unfold block_ngram_repeats, __len__.
  rewrite decide_False by lia. rewrite Ha. simpl.
  rewrite decide_False by lia. rewrite Hk.
  apply block_paths_idle. apply Forall_forall. intros [i row] Hin. simpl.
  apply elem_of_zip_seq in Hin as [_ Hin]. rewrite Nat.sub_0_r in Hin.
  assert (Hi : i < nrows a) by by eapply lookup_lt_Some.
  destruct (lookup_lt_is_Some_2 (forbidden_tokens self) i) as [d Ed]; [lia|].
  exists d. split; [done|].
  split; [exact (proj1 (Forall_lookup _ _) Hok i d Ed)|].
  change (slice_from (- (1 - 1)) row) with (drop 0 row).
  destruct (table_get (drop 0 row) (table (store self) d)) as [s|] eqn:E; [|done].
  exfalso. apply table_get_Some in E.
  assert (Hrow : length row = ncols a).
  { apply (proj1 (Forall_forall _ _) Hwf row). by eapply list_elem_of_lookup_2. }
  assert (drop 0 row = []) as Hnil.
  { apply (Hkeys d _ s); [by eapply list_elem_of_lookup_2 | done]. }
  rewrite drop_0 in Hnil. subst row. simpl in Hrow. lia.
Qed.

(** X19. With [block_ngram_repeat = 1] blocking never has any effect. In a
    strategy whose tables have no other key than the empty tuple (as after
    [__init__], where they are empty), [block_ngram_repeats] returns the
    scores unchanged, whatever the tables forbid; and
    [maybe_update_forbidden_tokens] leaves tables of that form again, so
    that [block_ngram_repeats] returns the scores unchanged after it too.
    The tokens are recorded under the empty tuple (X4 with [k = 1]) and
    looked up under the whole sequence. *)
Theorem unigram_blocking_never_blocks (self : state) (a : tensor2 nat) :
  block_ngram_repeat self = 1%Z →
  alive_seq self = Some a → wf a → 1 ≤ ncols a →
  Forall (dict_ok (store self)) (forbidden_tokens self) →
  keyless self →
  (nrows a ≤ length (forbidden_tokens self) →
     ∀ log_probs, block_ngram_repeats self log_probs = Ok log_probs)
  ∧ (∀ sel, select_indices self = Some sel →
       Forall (λ i, i < length (forbidden_tokens self)) sel →
       ∃ self', maybe_update_forbidden_tokens self = (Ok (), self')
         ∧ Forall (dict_ok (store self')) (forbidden_tokens self')
         ∧ keyless self'
         ∧ (nrows a ≤ length sel →
              ∀ log_probs, block_ngram_repeats self' log_probs = Ok log_probs)).
Proof.
  intros Hk Ha Hwf Hlen Hok Hkeys. split.
  - intros Hft lp. by eapply block_unigram_idle.
  - intros sel Hsel Hrange.
    destruct (update_tables_spec self a 1 sel Hk (le_n 1) Ha Hwf Hlen Hsel Hrange Hok)
      as (forbidden & h' & -> & Hlenf & Hds).
    eexists. split; [reflexivity|].
    assert (Hok' : Forall (dict_ok h') forbidden).
    { apply Forall_lookup. intros i d Hd.
      by destruct (Hds i d Hd) as (_ & _ & _ & _ & _ & _ & _ & ? & _). }
    assert (Hkeys' : keyless (set_forbidden_tokens forbidden h' self)).
    { intros d key s Hd. simpl in *.
      apply list_elem_of_lookup_1 in Hd as [i Hd].
      destruct (Hds i d Hd) as (src & row & l & _ & _ & Hl & _ & _ & ->).
      assert (Hold : ∀ s', (key, s') ∈ table (store self) l → key = []).
      { intros s'. apply Hkeys. by eapply list_elem_of_lookup_2. }
      unfold record_ngram.
      destruct (decide _); [apply Hold|].
      destruct (last _); [|apply Hold].
      intros [->|[s' Hin]]%table_add_keys; [done | by eapply Hold]. }
    split; [exact Hok'|]. split; [exact Hkeys'|].
    intros Hsela lp.
    apply (block_unigram_idle _ a); try done. simpl. lia.
Qed.

(** X19 on the unigram scenario, whose table reads [{(): {4}}]: token 4 is
    not blocked, neither before nor after the next update. *)
Lemma unigram_blocking_never_blocks_witness :
  block_ngram_repeats Scenario.unigram Scenario.scores_one = Ok Scenario.scores_one
  ∧ ∃ self', maybe_update_forbidden_tokens Scenario.unigram = (Ok (), self')
      ∧ block_ngram_repeats self' Scenario.scores_one = Ok Scenario.scores_one.
Proof.
  destruct (unigram_blocking_never_blocks Scenario.unigram (Tensor2 2 [[1; 4]])
              eq_refl eq_refl) as [Hblock Hupdate].
  - repeat constructor.
  - simpl. lia.
  - constructor; [|constructor].
    refine (bool_decide_unpack (dict_ok (store Scenario.unigram) 1) _).
    vm_compute. exact I.
  - intros d key s Hd%list_elem_of_singleton Hin. subst d.
    change (table (store Scenario.unigram) 1) with [([] : ngram, ({[4]} : gset nat))] in Hin.
    apply list_elem_of_singleton in Hin. by injection Hin.
  - split.
    + apply Hblock. unfold nrows. simpl. lia.
    + destruct (Hupdate [0] eq_refl) as (self' & Hrun & _ & _ & Hb).
      * repeat constructor.
      * exists self'. split; [exact Hrun|]. apply Hb. unfold nrows. simpl. lia.
Defined.

(** ** [DecodeStrategy]: indices out of range *)

Lemma update_paths_cons (excl : gset nat) (n : Z) (old : list loc)
    (p : nat * list nat) (ps : list (nat * list nat)) (hc : heap) :
  update_paths excl n old (p :: ps) hc
  = match update_paths excl n old [p] hc with
    | Ok (d :: _, h) => '(ds, h') ← update_paths excl n old ps h; Ok (d :: ds, h')
    | Ok ([], h) => Raise IndexError
    | Raise e => Raise e
    end.
Proof.
  destruct p as [src row]. simpl.
  destruct (or_raise IndexError (old !! src)) as [l|]; [|done]. simpl.
  destruct (deepcopy l hc) as [[d h]|]; [|done]. simpl.
  destruct (decide (list_to_set (slice_from (- n) row) ∩ excl ≠ ∅)); simpl; [done|].
  destruct (dict_setdefault_set d _ h) as [h1|]; [|done]. simpl.
  destruct (dict_getitem d _ h1) as [sl|]; [|done]. simpl.
  destruct (getitem (-1) _) as [x|]; [|done]. simpl.
  by destruct (set_add sl x h1).
Qed.

(** The loop of [maybe_update_forbidden_tokens] stops with [IndexError] at
    the first pair whose selected path has no table. *)
Lemma update_paths_unknown_path (excl : gset nat) (k : nat) (old : list loc) (h0 : heap) :
  0 < k → Forall (dict_ok h0) old →
  ∀ (paths : list (nat * list nat)) (hc : heap),
    length h0 ≤ length hc → agree_below (length h0) h0 hc →
    Forall (λ p, k ≤ length p.2) paths →
    Exists (λ p, length old ≤ p.1) paths →
    update_paths excl (Z.of_nat k) old paths hc = Raise IndexError.
Proof.
  intros Hk Hok. induction paths as [|[src row] ps IH]; intros hc Hlen Hag Hrows Hex.
  - by apply Exists_nil in Hex.
  - apply Forall_cons in Hrows as [Hrow Hrows]. simpl in Hrow.
    destruct (decide (src < length old)) as [Hin|Hout].
    + rewrite update_paths_cons.
      destruct (update_paths_spec excl k old h0 Hk Hok [(src, row)] hc Hlen Hag)
        as (ds & h1 & -> & Hlen1 & Hag1 & Hds & _).
      { by repeat constructor. }
      destruct ds as [|d ds]; [done|].
      rewrite IH; [done | lia | | done |].
      * apply (agree_below_trans (length h0) (length hc) h0 hc h1); [lia|done|done].
      * apply Exists_cons in Hex as [?|?]; [simpl in *; lia | done].
    + simpl. rewrite (lookup_ge_None_2 old src) by lia. done.
Qed.

(** X7. When one of the pairs of [zip(select_indices, alive_seq)] selects a
    path that has no table, [maybe_update_forbidden_tokens] raises
    [IndexError] and leaves the strategy as it was: [forbidden_tokens] is
    not reassigned. The indices beyond the number of alive sequences are
    dropped by [zip] and do not matter. *)
Theorem maybe_update_forbidden_tokens_rejects_unknown_path
    (self : state) (a : tensor2 nat) (k : nat) (sel : list nat) :
  block_ngram_repeat self = Z.of_nat k → 0 < k →
  alive_seq self = Some a → wf a → k ≤ ncols a →
  select_indices self = Some sel →
  Forall (dict_ok (store self)) (forbidden_tokens self) →
  Exists (λ i, length (forbidden_tokens self) ≤ i) (take (nrows a) sel) →
  maybe_update_forbidden_tokens self = (Raise IndexError, self).
Proof.
  intros Hk Hpos Ha Hwf Hlong Hsel Hok Hex.
  unfold maybe_update_forbidden_tokens, __len__.
  rewrite decide_False by lia. rewrite Ha, Hsel. simpl.
  rewrite decide_False by lia. rewrite Hk.
  assert (Hrows : Forall (λ p : nat * list nat, k ≤ length p.2) (zip sel (rows a))).
  { apply Forall_forall. intros [src row] Hin%elem_of_zip_r. simpl.
    rewrite (proj1 (Forall_forall _ _) Hwf row Hin). done. }
  assert (Hbad : Exists (λ p : nat * list nat, length (forbidden_tokens self) ≤ p.1)
                   (zip sel (rows a))).
  { apply Exists_exists. apply Exists_exists in Hex as (i & Hi & Hbad).
    unfold nrows in Hi. rewrite <- fst_zip_take in Hi.
    apply list_elem_of_fmap in Hi as (p & -> & Hp). by exists p. }
  by rewrite (update_paths_unknown_path (exclusion_tokens self) k
                (forbidden_tokens self) (store self) Hpos Hok (zip sel (rows a))
                (store self) (le_n _) (agree_below_refl _ _) Hrows Hbad).
Qed.

(** X7 on the bigram path, when the selection names path 3 and the
    strategy has one table. *)
Lemma maybe_update_forbidden_tokens_rejects_unknown_path_witness :
  maybe_update_forbidden_tokens Scenario.bigram_lost
  = (Raise IndexError, Scenario.bigram_lost).
Proof.
  apply (maybe_update_forbidden_tokens_rejects_unknown_path Scenario.bigram_lost
           (Tensor2 3 [[1; 4; 5]]) 2 [3] eq_refl).
  - lia.
  - reflexivity.
  - repeat constructor.
  - simpl. lia.
  - reflexivity.
  - constructor; [|constructor].
    refine (bool_decide_unpack (dict_ok (store Scenario.bigram_lost) 0) _).
    vm_compute. exact I.
  - left. simpl. lia.
Defined.

(** ** [DecodeStrategy]: the unknown token and the end of sentence *)

(** X8. [ensure_unk_removed]: when [ban_unk_token] is set and [unk] is a
    token of the vocabulary, every path has the score [-65504] at [unk] and
    its other scores unchanged; when [ban_unk_token] is not set the scores
    are returned as they are; when [ban_unk_token] is set and [unk] is
    outside the vocabulary the call raises [IndexError]. The method does not
    read the alive sequences. *)
Theorem ensure_unk_removed_masks_unk (self : state) (log_probs : tensor2 Q) :
  (ban_unk_token self = false → ensure_unk_removed self log_probs = Ok log_probs)
  ∧ (ban_unk_token self = true → unk self < ncols log_probs →
       ∃ lp', ensure_unk_removed self log_probs = Ok lp'
         ∧ ncols lp' = ncols log_probs ∧ nrows lp' = nrows log_probs
         ∧ ∀ i j x, entry log_probs i j = Some x →
             entry lp' i j
             = Some (if decide (j = unk self) then min_length_sentinel else x))
  ∧ (ban_unk_token self = true → ncols log_probs ≤ unk self →
       ensure_unk_removed self log_probs = Raise IndexError).
Proof.
  unfold ensure_unk_removed. split; [by intros ->|]. split.
  - intros -> Hunk.
    destruct (set_column (unk self) min_length_sentinel log_probs) as [lp'|e] eqn:E.
    + exists lp'. split; [done|]. by apply set_column_entry in E.
    + unfold set_column in E. by rewrite decide_True in E.
  - intros -> Hunk. unfold set_column. by rewrite decide_False by lia.
Qed.

(** X9. When the sequences are not longer than [min_length] and one of the
    end-of-sentence ids is outside the vocabulary of [log_probs],
    [ensure_min_length] raises [IndexError]. *)
Theorem ensure_min_length_rejects_eos_out_of_vocabulary
    (self : state) (a : tensor2 nat) (log_probs : tensor2 Q) :
  alive_seq self = Some a →
  (Z.of_nat (ncols a) ≤ min_length self)%Z →
  Exists (λ e, ncols log_probs ≤ e) (eos self) →
  ensure_min_length self log_probs = Raise IndexError.
Proof.
  intros Ha Hlen Hex. unfold ensure_min_length, __len__. rewrite Ha. simpl.
  rewrite decide_True by done. by apply set_columns_out_of_range.
Qed.

(** X9 on two paths of length 1 with [min_length = 2] and [eos = 2], over a
    vocabulary of two tokens. *)
Lemma ensure_min_length_rejects_eos_out_of_vocabulary_witness :
  ensure_min_length Scenario.two_paths Scenario.scores_narrow = Raise IndexError.
Proof.
  apply (ensure_min_length_rejects_eos_out_of_vocabulary Scenario.two_paths
           (Tensor2 1 [[1]; [1]]) Scenario.scores_narrow eq_refl).
  - simpl. lia.
  - left. simpl. lia.
Defined.

(** X10. Once the strategy is initialized, [ensure_min_length] and
    [ensure_unk_removed] can be applied in either order: both orders return
    the same scores, or raise the same exception. *)
Theorem ensure_min_length_ensure_unk_removed_commute
    (self : state) (a : tensor2 nat) (log_probs : tensor2 Q) :
  alive_seq self = Some a →
  (lp ← ensure_min_length self log_probs; ensure_unk_removed self lp)
  = (lp ← ensure_unk_removed self log_probs; ensure_min_length self lp).
Proof.
  intros Ha. unfold ensure_min_length, ensure_unk_removed, __len__.
  rewrite Ha. simpl.
  destruct (ban_unk_token self).
  - destruct (decide (Z.of_nat (ncols a) ≤ min_length self)%Z).
    + pose proof (set_columns_comm (unk self) min_length_sentinel (eos self)
                    (Ok log_probs)) as Hc.
      simpl in Hc. rewrite <- Hc.
      destruct (set_column (unk self) min_length_sentinel log_probs); simpl.
      * done.
      * apply set_columns_Raise.
    + simpl. destruct (set_column (unk self) min_length_sentinel log_probs);
        simpl; done.
  - simpl. by destruct (if decide _ then _ else _).
Qed.

(** X10 on two paths of length 1 with [min_length = 2] and the unknown
    token banned. *)
Lemma ensure_min_length_ensure_unk_removed_commute_witness :
  (lp ← ensure_min_length Scenario.two_paths_no_unk Scenario.scores;
   ensure_unk_removed Scenario.two_paths_no_unk lp)
  = (lp ← ensure_unk_removed Scenario.two_paths_no_unk Scenario.scores;
     ensure_min_length Scenario.two_paths_no_unk lp).
Proof.
  exact (ensure_min_length_ensure_unk_removed_commute Scenario.two_paths_no_unk
           (Tensor2 1 [[1]; [1]]) Scenario.scores eq_refl).
Defined.

(** ** [DecodeStrategy]: from construction to the first step *)

(** X11. A strategy is not usable before [initialize]: on the object
    [__init__] returns, [__len__], [ensure_min_length],
    [ensure_max_length], [target_prefixing] and
    [maybe_update_target_prefix] raise [AttributeError], and so do
    [block_ngram_repeats] and [maybe_update_forbidden_tokens] when
    [block_ngram_repeat] is positive; the strategy is left as it was. With
    [block_ngram_repeat <= 0] these two return at once and change nothing.
    After [initialize] the length is 1. *)
Theorem methods_need_initialize
    (pad bos : nat) (eos : eos_arg) (unk start batch_size parallel_paths : nat)
    (min_length block_ngram_repeat : Z) (exclusion_tokens : gset nat)
    (return_attention : bool) (max_length : Z) (ban_unk_token : bool)
    (log_probs : tensor2 Q) (select_index : list nat) :
  ∃ s, __init__ pad bos eos unk start batch_size parallel_paths min_length
         block_ngram_repeat exclusion_tokens return_attention max_length
         ban_unk_token = Ok s
    ∧ __len__ s = Raise AttributeError
    ∧ ensure_min_length s log_probs = Raise AttributeError
    ∧ ensure_max_length s = (Raise AttributeError, s)
    ∧ target_prefixing s log_probs = Raise AttributeError
    ∧ maybe_update_target_prefix select_index s = (Raise AttributeError, s)
    ∧ ((0 < block_ngram_repeat)%Z →
         block_ngram_repeats s log_probs = Raise AttributeError
         ∧ maybe_update_forbidden_tokens s = (Raise AttributeError, s))
    ∧ ((block_ngram_repeat ≤ 0)%Z →
         block_ngram_repeats s log_probs = Ok log_probs
         ∧ maybe_update_forbidden_tokens s = (Ok (), s))
    ∧ ∃ s', initialize None s = (Ok (), s') ∧ __len__ s' = Ok 1.
Proof.
  unfold __init__. rewrite alloc_dicts_closed. eexists. split; [reflexivity|].
  split; [done|]. split; [done|]. split; [done|]. split; [done|].
  split; [done|]. split; [|split].
  - intros Hpos. unfold block_ngram_repeats, maybe_update_forbidden_tokens. simpl.
    by rewrite !decide_False by lia.
  - intros Hoff. unfold block_ngram_repeats, maybe_update_forbidden_tokens. simpl.
    by rewrite !decide_True.
  - eexists. split; reflexivity.
Qed.

(** X12. Right after [initialize] without a prefix, whatever the strategy
    held before, the sequences have length 1 and: [target_prefixing]
    returns the scores unchanged; [ensure_max_length] marks every path of
    every sentence finished when [max_length] is 0 and changes nothing
    otherwise; [ensure_min_length] returns the scores unchanged when
    [min_length <= 0]; with a block size other than 1, [block_ngram_repeats]
    returns the scores unchanged and [maybe_update_forbidden_tokens] changes
    nothing. *)
Theorem initialize_then_first_step (self : state) (log_probs : tensor2 Q) :
  ∃ s, initialize None self = (Ok (), s)
    ∧ __len__ s = Ok 1
    ∧ target_prefixing s log_probs = Ok log_probs
    ∧ (max_length self = 0%Z →
         ∃ s', ensure_max_length s = (Ok (), s')
           ∧ is_finished_list s'
             = Some (replicate (batch_size self)
                       (replicate (parallel_paths self) true))
           ∧ alive_seq s' = alive_seq s
           ∧ s' = set_is_finished_list (is_finished_list s') s)
    ∧ (max_length self ≠ 0%Z → ensure_max_length s = (Ok (), s))
    ∧ ((min_length self ≤ 0)%Z → ensure_min_length s log_probs = Ok log_probs)
    ∧ (block_ngram_repeat self ≠ 1%Z →
         block_ngram_repeats s log_probs = Ok log_probs
         ∧ maybe_update_forbidden_tokens s = (Ok (), s)).
Proof.
  eexists. split; [reflexivity|]. split; [done|]. split; [done|].
  split; [|split; [|split]].
  - intros Hmax. unfold ensure_max_length. simpl.
    rewrite decide_True by lia. rewrite length_replicate.
    eexists. split; [reflexivity|]. by repeat split.
  - intros Hmax. unfold ensure_max_length. simpl.
    by rewrite decide_False by lia.
  - intros Hmin. unfold ensure_min_length. simpl.
    by rewrite decide_False by lia.
  - intros Hk. unfold block_ngram_repeats, maybe_update_forbidden_tokens. simpl.
    destruct (decide (block_ngram_repeat self ≤ 0)%Z); [done|].
    by rewrite !decide_True by lia.
Qed.

(** X13. [initialize] with a tiled prefix of well-formed rows succeeds, and
    the two length bounds move in step: [min_length] goes down by one at
    most, [max_length] moves at least as far up as [min_length] does, and
    it goes up by the number of prefix columns after the start token,
    minus one, at most. So [min_length <= max_length] is kept. *)
Theorem initialize_keeps_bounds_ordered (self : state) (prefix : tensor2 nat) :
  nrows prefix = batch_size self * parallel_paths self →
  0 < nrows prefix → wf prefix →
  ∃ s, initialize (Some prefix) self = (Ok (), s)
    ∧ (min_length self - 1 ≤ min_length s)%Z
    ∧ (min_length s - min_length self ≤ max_length s - max_length self)%Z
    ∧ (max_length s ≤ max_length self + Z.of_nat (ncols prefix - 1) - 1)%Z.
Proof.
  intros Hn Hpos Hwf. unfold initialize. simpl.
  rewrite decide_True by done.
  set (stored := slice_cols 1 prefix).
  assert (Hne : count_ne (pad self) stored ≠ []).
  { apply count_ne_nonempty. unfold stored, nrows, slice_cols. simpl.
    rewrite length_fmap. exact Hpos. }
  destruct (py_max_spec _ Hne) as (mx & -> & Hmx_in & Hmx).
  destruct (py_min_spec _ Hne) as (mn & -> & Hmn_in & Hmn).
  eexists. split; [reflexivity|]. simpl.
  pose proof (count_ne_bounds _ _ _ (slice_cols_wf 1 prefix Hwf) Hmx_in) as Bx.
  pose proof (count_ne_bounds _ _ _ (slice_cols_wf 1 prefix Hwf) Hmn_in) as Bn.
  pose proof (proj1 (Forall_forall _ _) Hmn mx Hmx_in) as Hle. simpl in Hle.
  unfold stored in *. simpl in *. lia.
Qed.

(** X13 on the two paths ([min_length = 2], [max_length = 10]) and the
    prefix [[1 4 5]; [1 5 0]]. *)
Lemma initialize_keeps_bounds_ordered_witness :
  ∃ s, initialize (Some Scenario.prefix) Scenario.two_paths = (Ok (), s)
    ∧ (min_length Scenario.two_paths - 1 ≤ min_length s)%Z
    ∧ (min_length s - min_length Scenario.two_paths
       ≤ max_length s - max_length Scenario.two_paths)%Z
    ∧ (max_length s
       ≤ max_length Scenario.two_paths + Z.of_nat (ncols Scenario.prefix - 1) - 1)%Z.
Proof.
  apply (initialize_keeps_bounds_ordered Scenario.two_paths Scenario.prefix).
  - reflexivity.
  - unfold nrows. simpl. lia.
  - repeat constructor.
Defined.

(** X14. [initialize] with a prefix for a strategy without any path (an
    empty batch): the prefix has no row, [max] is applied to an empty list
    and the call raises [ValueError]. By then [alive_seq] is reset;
    [target_prefix] and the two length bounds are as before. *)
Theorem initialize_empty_prefix_raises (self : state) (prefix : tensor2 nat) :
  batch_size self * parallel_paths self = 0 → nrows prefix = 0 →
  ∃ s, initialize (Some prefix) self = (Raise ValueError, s)
    ∧ alive_seq s = Some (full 0 1 (start self))
    ∧ target_prefix s = target_prefix self
    ∧ max_length s = max_length self ∧ min_length s = min_length self.
Proof.
  intros Hn Hrows. unfold initialize. simpl.
  rewrite decide_True by lia.
  assert (rows prefix = []) as Hnil by by apply length_zero_iff_nil.
  unfold count_ne, slice_cols. simpl. rewrite Hnil. simpl.
  eexists. split; [reflexivity|]. simpl. rewrite Hn. done.
Qed.

(** X14 on a strategy for an empty batch. *)
Lemma initialize_empty_prefix_raises_witness :
  ∃ s, initialize (Some Scenario.prefix_empty) Scenario.no_paths
       = (Raise ValueError, s)
    ∧ alive_seq s = Some (full 0 1 (start Scenario.no_paths))
    ∧ target_prefix s = target_prefix Scenario.no_paths
    ∧ max_length s = max_length Scenario.no_paths
    ∧ min_length s = min_length Scenario.no_paths.
Proof.
  apply (initialize_empty_prefix_raises Scenario.no_paths Scenario.prefix_empty);
    reflexivity.
Defined.

(** ** [DecodeStrategy]: the prefix after a beam selection *)

(** X15. While the sequences are not longer than the prefix,
    [maybe_update_target_prefix] returns a strategy whose [target_prefix]
    holds the rows of the old prefix taken in the order of [select_index]:
    row [i] of the new prefix is row [select_index[i]] of the old one, the
    width is unchanged and there are as many rows as indices; the other
    attributes are as before. When an index names no row of the prefix the
    call raises [IndexError] and the strategy is left as it was. *)
Theorem maybe_update_target_prefix_reorders
    (self : state) (a prefix : tensor2 nat) (select_index : list nat) :
  alive_seq self = Some a →
  target_prefix self = Some (Some prefix) →
  ncols a ≤ ncols prefix →
  (Forall (λ i, i < nrows prefix) select_index →
     ∃ self' prefix',
       maybe_update_target_prefix select_index self = (Ok (), self')
       ∧ target_prefix self' = Some (Some prefix')
       ∧ self' = set_target_prefix (target_prefix self') self
       ∧ ncols prefix' = ncols prefix ∧ nrows prefix' = length select_index
       ∧ (∀ i src, select_index !! i = Some src →
            rows prefix' !! i = rows prefix !! src)
       ∧ (wf prefix → wf prefix'))
  ∧ (Exists (λ i, nrows prefix ≤ i) select_index →
       maybe_update_target_prefix select_index self = (Raise IndexError, self)).
Proof.
  intros Ha Hp Hlen. unfold maybe_update_target_prefix, __len__.
  rewrite Hp, Ha. simpl. rewrite decide_False by lia.
  unfold index_select.
  destruct (mapM (λ i : nat, rows prefix !! i) select_index) as [rs|] eqn:E; simpl.
  - apply mapM_Some in E. split.
    + intros _. eexists _, _. split; [reflexivity|]. simpl.
      split; [reflexivity|]. split; [reflexivity|]. simpl. split; [done|]. split.
      { unfold nrows. simpl. symmetry. by eapply Forall2_length. }
      split.
      * intros i src Hi.
        destruct (Forall2_lookup_l _ _ _ _ _ E Hi) as (r & -> & ->). done.
      * intros Hwf. unfold wf. simpl. apply Forall_forall. intros r Hr.
        apply list_elem_of_lookup_1 in Hr as [i Hi].
        destruct (Forall2_lookup_r _ _ _ _ _ E Hi) as (src & _ & Hsrc).
        apply (proj1 (Forall_forall _ _) Hwf r). by eapply list_elem_of_lookup_2.
    + intros Hbad. exfalso. apply Exists_exists in Hbad as (i & Hi & Hge).
      apply list_elem_of_lookup_1 in Hi as [n Hn].
      destruct (Forall2_lookup_l _ _ _ _ _ E Hn) as (r & _ & Hr).
      apply lookup_lt_Some in Hr. unfold nrows in Hge. lia.
  - split; [|done]. intros Hall. exfalso.
    assert (is_Some (mapM (λ i : nat, rows prefix !! i) select_index)) as [? ?];
      [|congruence].
    apply mapM_is_Some. eapply Forall_impl; [exact Hall|].
    intros i Hi. simpl. by apply lookup_lt_is_Some_2.
Qed.

(** X15 on the two prefixed paths, whose prefix is [[4 5] [5 0]], when both
    continue the second path: both rows of the prefix of the returned
    strategy are [5 0]. *)
Lemma maybe_update_target_prefix_reorders_witness :
  target_prefix Scenario.two_paths_prefixed
  = Some (Some (Tensor2 2 [[4; 5]; [5; 0]]))
  ∧ ∃ s, maybe_update_target_prefix [1; 1] Scenario.two_paths_prefixed = (Ok (), s)
      ∧ target_prefix s = Some (Some (Tensor2 2 [[5; 0]; [5; 0]])).
Proof.
  split; [reflexivity|].
  destruct (maybe_update_target_prefix_reorders Scenario.two_paths_prefixed
              (Tensor2 2 [[1; 4]; [1; 5]]) (Tensor2 2 [[4; 5]; [5; 0]]) [1; 1]
              eq_refl eq_refl) as [H _].
  - simpl. lia.
  - destruct H as (s & prefix' & Hrun & _).
    + repeat (constructor; [unfold nrows; simpl; lia|]). constructor.
    + exists s. split; [exact Hrun|].
      vm_compute in Hrun. injection Hrun as <-. reflexivity.
Defined.

End DecodeStrategyFacts.

(** ** [TransformerDecoder]: the life cycle of the caches *)

Module TransformerDecoderFacts.
Import Py PyFacts TransformerDecoder.

Section Caches.

Variable context_proj : nat → tensor → tensor * tensor.
Variable self_attn_buffers : nat → tensor → list (string * tensor) → list (string * tensor).
Variable layer_out : nat → tensor → tensor → layer → tensor.
Variable layer_norm : tensor → tensor.

#[local] Abbreviation layer_call := (layer_call context_proj self_attn_buffers layer_out).
#[local] Abbreviation run_layers := (run_layers context_proj self_attn_buffers layer_out).
#[local] Abbreviation forward := (forward context_proj self_attn_buffers layer_out layer_norm).
#[local] Abbreviation context_cached := (context_cached context_proj).

(** What the loop over the layers does to each of them. *)
Lemma run_layers_lookup (layers : list layer) (i : nat) (emb enc_out : tensor) :
  length (run_layers i emb enc_out layers).2 = length layers
  ∧ ∀ k l', (run_layers i emb enc_out layers).2 !! k = Some l' →
      ∃ l x, layers !! k = Some l ∧ l' = (layer_call (i + k) x enc_out l).2.
Proof.
  revert i emb. induction layers as [|l layers IH]; intros i emb; simpl.
  - split; [done|]. intros k l' Hk. by rewrite lookup_nil in Hk.
  - destruct (IH (S i) (layer_out i emb enc_out
                 (Layer (self_attn l)
                    (self_attn_call self_attn_buffers i emb (self_attn_layer_cache l))
                    (context_attn_call context_proj i enc_out (context_attn_layer_cache l)))))
      as [Hlen Hk].
    destruct (run_layers (S i) _ enc_out layers) as [out layers'] eqn:E.
    simpl in *. split; [by rewrite Hlen|].
    intros [|k] l' Hl'; simpl in *.
    + injection Hl' as <-. exists l, emb. rewrite Nat.add_0_r. done.
    + destruct (Hk k l' Hl') as (l0 & x & Hl0 & ->).
      exists l0, x. replace (i + S k) with (S i + k) by lia. done.
Qed.

Lemma context_attn_call_fresh (i : nat) (enc_out : tensor) :
  context_attn_call context_proj i enc_out (kv_cache true empty empty)
  = kv_cache true (context_proj i enc_out).1 (context_proj i enc_out).2.
Proof. reflexivity. Qed.

Lemma context_attn_call_cached (i : nat) (enc_out : tensor) :
  let c := kv_cache true (context_proj i enc_out).1 (context_proj i enc_out).2 in
  context_attn_call context_proj i enc_out c = c.
Proof. simpl. unfold context_attn_call, kv_cache. by case_decide. Qed.

Lemma context_attn_call_off (i : nat) (enc_out : tensor) (c : layer_cache) :
  c.1 = false → context_attn_call context_proj i enc_out c = c.
Proof. destruct c as [[] ?]; [done|]. reflexivity. Qed.

Lemma self_attn_call_off (i : nat) (x : tensor) (c : layer_cache) :
  c.1 = false → self_attn_call self_attn_buffers i x c = c.
Proof. unfold self_attn_call. by intros ->. Qed.

Lemma forward_setup_Ok (emb : tensor) (enc_out tgt src : option tensor)
    (step : option Z) (layers : list layer) :
  dim emb = 3 → tgt ≠ None → src ≠ None →
  forward_setup emb enc_out tgt src step layers
  = match step with
    | Some 0%Z => layers ← _init_cache (default emb enc_out) layers;
                  Ok (default emb enc_out, layers)
    | None => Ok (default emb enc_out, disable_cache layers)
    | Some _ => Ok (default emb enc_out, layers)
    end.
Proof.
  intros Hdim Htgt Hsrc. unfold forward_setup.
  rewrite decide_False by (intros H; by apply H).
  rewrite decide_False by done. rewrite decide_False by done. done.
Qed.


End Caches.


(** ** [TransformerDecoder]: the set-up of [forward] *)

Lemma size_first (t : tensor) :
  (0 < dim t → ∃ n, size 0 t = Ok n) ∧ (dim t = 0 → size 0 t = Raise IndexError).
Proof.
  unfold size, getitem, norm_index, dim. simpl. split.
  - intros Hd. rewrite decide_True by lia.
    destruct (lookup_lt_is_Some_2 (shape t) 0 Hd) as [n Hn].
    exists n.
    change ((Ok (Z.to_nat 0) : result nat) ≫= (λ j, or_raise IndexError (shape t !! j)))
      with (or_raise IndexError (shape t !! 0)).
    by rewrite Hn.
  - intros ->. by rewrite decide_False by lia.
Qed.

Lemma size_last (t : tensor) : 0 < dim t → ∃ n, size (-1) t = Ok n.
Proof.
  unfold size, getitem, norm_index, dim. simpl. intros Hd.
  rewrite decide_True by lia.
  destruct (lookup_lt_is_Some_2 (shape t) (Z.to_nat (Z.of_nat (length (shape t)) + -1)))
    as [n Hn]; [lia|].
  exists n. unfold mbind, result_bind. by rewrite Hn.
Qed.

Lemma init_cache_kinds (enc_out : tensor) (layers layers' : list layer) :
  _init_cache enc_out layers = Ok layers' →
  self_attn <$> layers' = self_attn <$> layers.
Proof.
  unfold _init_cache. destruct (size 0 enc_out); [|done]. simpl.
  destruct (size (-1) enc_out); [|done]. simpl. intros [= <-].
  rewrite <- list_fmap_compose. by apply list_fmap_ext.
Qed.

Lemma disable_cache_kinds (layers : list layer) :
  self_attn <$> disable_cache layers = self_attn <$> layers.
Proof.
  unfold disable_cache. rewrite <- list_fmap_compose. by apply list_fmap_ext.
Qed.

(** X17. How the set-up of [forward] fails. It raises [AssertionError]
    exactly when [emb] is not 3-dimensional or one of the two padding masks
    is missing. Past the assertions the only failure is an [IndexError] at
    step 0, when an encoder output without any dimension is passed: its
    sizes cannot be read by [_init_cache]. In every other case the set-up
    succeeds, uses [emb] for a missing [enc_out], and keeps the layers and
    the kind of self attention of each. *)
Theorem forward_setup_failures
    (emb : tensor) (enc_out tgt_pad_mask src_pad_mask : option tensor)
    (step : option Z) (layers : list layer) :
  (forward_setup emb enc_out tgt_pad_mask src_pad_mask step layers
   = Raise AssertionError
   ↔ dim emb ≠ 3 ∨ tgt_pad_mask = None ∨ src_pad_mask = None)
  ∧ (∀ e, forward_setup emb enc_out tgt_pad_mask src_pad_mask step layers = Raise e →
       e = AssertionError
       ∨ (e = IndexError ∧ step = Some 0%Z ∧ ∃ t, enc_out = Some t ∧ dim t = 0))
  ∧ (dim emb = 3 → tgt_pad_mask ≠ None → src_pad_mask ≠ None →
     (step = Some 0%Z → 0 < dim (default emb enc_out)) →
     ∃ layers',
       forward_setup emb enc_out tgt_pad_mask src_pad_mask step layers
       = Ok (default emb enc_out, layers')
       ∧ self_attn <$> layers' = self_attn <$> layers).
Proof.
  assert (Hinit : ∀ enc, 0 < dim enc →
            ∃ layers', _init_cache enc layers = Ok layers').
  { intros enc Hd. unfold _init_cache.
    destruct (proj1 (size_first enc) Hd) as [b ->].
    destruct (size_last enc Hd) as [d ->]. simpl. eauto. }
  assert (Hbad : ∀ enc, dim enc = 0 → _init_cache enc layers = Raise IndexError).
  { intros enc Hd. unfold _init_cache. by rewrite (proj2 (size_first enc) Hd). }
  unfold forward_setup.
  destruct (decide (dim emb ≠ 3)) as [Hdim|Hdim].
  { split; [by split; [left|] |]. split; [intros e [= <-]; by left|]. done. }
  apply dec_stable in Hdim.
  destruct (decide (tgt_pad_mask = None)) as [Htgt|Htgt].
  { split; [split; [by right; left | done] |]. split; [intros e [= <-]; by left|]. done. }
  destruct (decide (src_pad_mask = None)) as [Hsrc|Hsrc].
  { split; [split; [by right; right | done] |]. split; [intros e [= <-]; by left|]. done. }
  assert (Hno : ¬ (dim emb ≠ 3 ∨ tgt_pad_mask = None ∨ src_pad_mask = None)).
  { intros [?|[?|?]]; done. }
  destruct step as [[|s|s]|]; simpl.
  - destruct (decide (0 < dim (default emb enc_out))) as [Hd|Hd].
    + destruct (Hinit _ Hd) as [layers' E]. rewrite E. simpl.
      split; [split; [done | by intros ?] |]. split; [done|].
      intros _ _ _ _. exists layers'. split; [done|]. by eapply init_cache_kinds.
    + rewrite Hbad by lia. simpl.
      split; [split; [done | by intros ?] |]. split.
      * intros e [= <-]. right. split; [done|]. split; [done|].
        destruct enc_out as [t|]; simpl in *; [|lia]. exists t. split; [done|lia].
      * intros _ _ _ H. specialize (H eq_refl). lia.
  - split; [split; [done | by intros ?] |]. split; [done|]. intros _ _ _ _. eauto.
  - split; [split; [done | by intros ?] |]. split; [done|]. intros _ _ _ _. eauto.
  - split; [split; [done | by intros ?] |]. split; [done|]. intros _ _ _ _.
    eexists. split; [done|]. apply disable_cache_kinds.
Qed.

(** X18. What the caches held before a set-up does not matter: at step 0
    and without a step, the set-up of [forward] on two decoders whose layers
    have the same kinds of self attention gives the same result, whatever
    their caches hold. Nothing of an earlier sentence is left in a cache. *)
Theorem forward_setup_drops_stale_caches
    (emb : tensor) (enc_out tgt_pad_mask src_pad_mask : option tensor)
    (layers layers' : list layer) :
  self_attn <$> layers = self_attn <$> layers' →
  forward_setup emb enc_out tgt_pad_mask src_pad_mask (Some 0%Z) layers
  = forward_setup emb enc_out tgt_pad_mask src_pad_mask (Some 0%Z) layers'
  ∧ forward_setup emb enc_out tgt_pad_mask src_pad_mask None layers
    = forward_setup emb enc_out tgt_pad_mask src_pad_mask None layers'.
Proof.
  intros Hk.
  assert (Hmap : ∀ f : self_attn_kind → layer,
            (λ l, f (self_attn l)) <$> layers = (λ l, f (self_attn l)) <$> layers').
  { intros f.
    change (λ l, f (self_attn l)) with (f ∘ self_attn).
    by rewrite !list_fmap_compose, Hk. }
  unfold forward_setup, _init_cache, disable_cache.
  repeat case_decide; try done. split.
  - destruct (size 0 _); [|done]. simpl. destruct (size (-1) _); [|done]. simpl.
    do 2 f_equal.
    apply (Hmap (λ k, Layer k
                   match k with
                   | AverageAttention => avg_cache true (zeros [_; 1; _])
                   | MultiHeadedAttention => kv_cache true empty empty
                   end (kv_cache true empty empty))).
  - do 2 f_equal.
    apply (Hmap (λ k, Layer k
                   match k with
                   | AverageAttention => avg_cache false empty
                   | MultiHeadedAttention => kv_cache false empty empty
                   end (kv_cache false empty empty))).
Qed.

(** X18 on the two-layer decoder: the caches left over from an earlier
    sentence and caches that are off and empty lead to the same set-up. *)
Lemma forward_setup_drops_stale_caches_witness :
  forward_setup Scenario.emb (Some Scenario.enc_out) (Some Scenario.mask)
    (Some Scenario.mask) (Some 0%Z) Scenario.layers
  = forward_setup Scenario.emb (Some Scenario.enc_out) (Some Scenario.mask)
      (Some Scenario.mask) (Some 0%Z) Scenario.layers_off
  ∧ forward_setup Scenario.emb (Some Scenario.enc_out) (Some Scenario.mask)
      (Some Scenario.mask) None Scenario.layers
    = forward_setup Scenario.emb (Some Scenario.enc_out) (Some Scenario.mask)
        (Some Scenario.mask) None Scenario.layers_off.
Proof.
  exact (forward_setup_drops_stale_caches Scenario.emb (Some Scenario.enc_out)
           (Some Scenario.mask) (Some Scenario.mask) Scenario.layers
           Scenario.layers_off eq_refl).
Defined.

End TransformerDecoderFacts.
